(** * ArenaX: the bump-pointer allocator [quanta::Arena]

    A shallow embedding of [include/quanta/Arena.hpp].  Values of type
    [size_t] and addresses are integers in [0, 2^64); every C++ operation
    on them is written with its wrap-around.  An arena is the record of its
    three private fields; member functions are functions on that record, and
    the operations that touch the free store or need object identity
    (construction, destruction, moves) act on a [World] holding the blocks
    handed out by [::operator new] and the arena objects by location. *)

From Stdlib Require Import ZArith Lia List Bool.
From stdpp Require Import base option gmap.
Import ListNotations.

Local Open Scope Z_scope.

(** ** [size_t] and pointer arithmetic *)

Module SizeT.

Definition bits : Z := 64.
Definition modulus : Z := 2 ^ bits.
Definition SIZE_MAX : Z := modulus - 1.
Definition PTRDIFF_MAX : Z := 2 ^ (bits - 1) - 1.

Definition wrap (z : Z) : Z := z mod modulus.

Definition add (a b : Z) : Z := wrap (a + b).
Definition sub (a b : Z) : Z := wrap (a - b).
Definition mul (a b : Z) : Z := wrap (a * b).

(** The values a [size_t] variable can hold. *)
Definition in_range (z : Z) : Prop := 0 <= z <= SIZE_MAX.

End SizeT.

Import SizeT.

(** A pointer is its address; [char*] arithmetic moves it by bytes. *)
Definition nullptr : Z := 0.
Definition ptr_add (p n : Z) : Z := wrap (p + n).

(** ** The helpers of [Common.hpp] *)

(** The mathematical rounding the specification names: the least multiple
    of [alignment] that is not below [value]. *)
Definition round_up (value alignment : Z) : Z :=
  (value + alignment - 1) / alignment * alignment.

(** Modelled from the spec: [is_power_of_2] of [Common.hpp], which is not
    among the sources.  The specification asks that [alignment] "must be a
    power of two"; on a [size_t] that is a non-zero value with a single bit
    set. *)
Definition is_power_of_2 (x : Z) : bool :=
  (0 <? x) && (Z.land x (x - 1) =? 0).

(** Modelled from the spec: [align_up] of [Common.hpp], which is not among
    the sources.  The specification says "round the current position up to
    the next multiple of alignment"; the result is a [size_t]. *)
Definition align_up (value alignment : Z) : Z :=
  wrap (round_up value alignment).

(** ** The class [Arena] *)

Record Arena : Type := mkArena {
  buffer_ : Z;
  capacity_ : Z;
  pos_ : Z
}.

Global Instance Arena_eq_dec : EqDecision Arena.
Proof. solve_decision. Defined.

(** [Arena() noexcept] *)
Definition Arena_default : Arena := mkArena nullptr 0 0.

(** [explicit Arena(size_t capacity)], where [p] is the address that
    [::operator new(capacity)] returned. *)
Definition Arena_sized (p capacity : Z) : Arena := mkArena p capacity 0.

(** [void* allocate(size_t size, size_t alignment) noexcept]: the returned
    pointer and the arena after the call. *)
Definition allocate (a : Arena) (size alignment : Z) : Z * Arena :=
  if negb (is_power_of_2 alignment) || (size =? 0) then (nullptr, a)
  else
    let aligned_pos := align_up (pos_ a) alignment in
    if (add aligned_pos size <? aligned_pos) || (add aligned_pos size >? capacity_ a)
    then (nullptr, a)
    else (ptr_add (buffer_ a) aligned_pos,
          mkArena (buffer_ a) (capacity_ a) (add aligned_pos size)).

(** A type [T] as the template sees it: [sizeof(T)] and [alignof(T)]. *)
Record CType : Type := mkCType {
  sizeof : Z;
  alignof : Z
}.

(** The calls a member function makes to the byte-level [allocate]. *)
Inductive call : Type :=
| ByteAllocate (size alignment : Z).

(** [template<typename T> T* allocate(size_t count = 1) noexcept]: the
    returned pointer, the arena after the call, and the byte-level calls
    made on the way. *)
Definition allocate_T (T : CType) (a : Arena) (count : Z) : (Z * Arena) * list call :=
  if count >? SIZE_MAX / sizeof T then ((nullptr, a), [])
  else
    let total_size := mul (sizeof T) count in
    (allocate a total_size (alignof T), [ByteAllocate total_size (alignof T)]).

(** [void reset() noexcept] *)
Definition reset (a : Arena) : Arena :=
  mkArena (buffer_ a) (capacity_ a) 0.

(** [size_t used() const noexcept] *)
Definition used (a : Arena) : Z := pos_ a.

(** [size_t capacity() const noexcept] *)
Definition capacity (a : Arena) : Z := capacity_ a.

(** [size_t available() const noexcept] *)
Definition available (a : Arena) : Z := sub (capacity_ a) (pos_ a).

(** [bool owns(void* ptr) const noexcept] *)
Definition owns (a : Arena) (ptr : Z) : bool :=
  (ptr >=? buffer_ a) && (ptr <? ptr_add (buffer_ a) (capacity_ a)).

(** Successive byte-level requests [(size, alignment)] on one arena with
    no [reset] in between: the ranges [(pointer, size)] of the requests
    that succeeded, in call order, and the arena at the end. *)
Fixpoint allocate_all (a : Arena) (reqs : list (Z * Z)) : list (Z * Z) * Arena :=
  match reqs with
  | [] => ([], a)
  | (size, alignment) :: rest =>
      let r := allocate a size alignment in
      let rs := allocate_all (snd r) rest in
      (if fst r =? nullptr then fst rs else (fst r, size) :: fst rs, snd rs)
  end.

(** Two byte ranges [(start, size)] share no byte. *)
Definition range_disjoint (r1 r2 : Z * Z) : Prop :=
  fst r1 + snd r1 <= fst r2 \/ fst r2 + snd r2 <= fst r1.

(** ** The free store and the arena objects *)

(** What [::operator new] promises about the address it returns
    ([__STDCPP_DEFAULT_NEW_ALIGNMENT__], 16 on the usual 64-bit targets). *)
Definition DEFAULT_NEW_ALIGNMENT : Z := 16.

Record World : Type := mkWorld {
  heap : gmap Z Z;        (* live blocks of [::operator new]: address and size *)
  mem : gmap Z Z;         (* the bytes stored so far, by address *)
  objs : gmap nat Arena   (* the live [Arena] objects, by location *)
}.

Definition World_empty : World := mkWorld ∅ ∅ ∅.

(** A successful [::operator new(size)] returning [p]: a non-null address
    aligned for every scalar type, that is not the address of a live block,
    of a block that fits the address space and is no larger than
    [PTRDIFF_MAX], the largest object an implementation supports.  (A
    request that cannot be met throws and no arena is constructed.) *)
Definition new_ok (h : gmap Z Z) (p size : Z) : bool :=
  (0 <? p) && (p mod DEFAULT_NEW_ALIGNMENT =? 0) &&
  (0 <=? size) && (size <=? PTRDIFF_MAX) && (p + size <=? SIZE_MAX) &&
  bool_decide (h !! p = None).

(** [::operator delete(p)] *)
Definition operator_delete (p : Z) (h : gmap Z Z) : gmap Z Z := delete p h.

(** [if (buffer_) ::operator delete(buffer_);] *)
Definition release (a : Arena) (h : gmap Z Z) : gmap Z Z :=
  if buffer_ a =? nullptr then h else operator_delete (buffer_ a) h.

Definition in_rangeb (z : Z) : bool := (0 <=? z) && (z <=? SIZE_MAX).

(** [Arena a;] at the fresh location [l]. *)
Definition construct_default (l : nat) (w : World) : option World :=
  match objs w !! l with
  | None => Some (mkWorld (heap w) (mem w) (<[l := Arena_default]> (objs w)))
  | Some _ => None
  end.

(** [Arena a(capacity);] at the fresh location [l], when
    [::operator new(capacity)] returns [p]. *)
Definition construct_sized (l : nat) (capacity p : Z) (w : World) : option World :=
  match objs w !! l with
  | None =>
      if in_rangeb capacity && new_ok (heap w) p capacity
      then Some (mkWorld (<[p := capacity]> (heap w)) (mem w)
                         (<[l := Arena_sized p capacity]> (objs w)))
      else None
  | Some _ => None
  end.

(** [std::exchange(obj, new_value)]: the value [obj] had, and [obj]
    afterwards. *)
Definition exchange {A : Type} (obj new_value : A) : A * A := (obj, new_value).

(** The three [std::exchange] calls shared by the move constructor and
    the move assignment: the fields taken from [other], and [other]
    afterwards. *)
Definition take_fields (other : Arena) : Arena * Arena :=
  let b := exchange (buffer_ other) nullptr in
  let c := exchange (capacity_ other) 0 in
  let p := exchange (pos_ other) 0 in
  (mkArena (fst b) (fst c) (fst p), mkArena (snd b) (snd c) (snd p)).

(** [Arena a(std::move(other));] at the fresh location [l]. *)
Definition move_construct (l other : nat) (w : World) : option World :=
  match objs w !! l, objs w !! other with
  | None, Some o =>
      Some (mkWorld (heap w) (mem w)
              (<[l := fst (take_fields o)]>
                 (<[other := snd (take_fields o)]> (objs w))))
  | _, _ => None
  end.

(** [a = std::move(other);] where [a] lives at [this]: nothing when
    [this == &other]; otherwise the buffer [a] held is deleted and the
    fields are taken from [other]. *)
Definition move_assign (this other : nat) (w : World) : option World :=
  match objs w !! this, objs w !! other with
  | Some t, Some o =>
      if decide (this = other) then Some w
      else
        Some (mkWorld (release t (heap w)) (mem w)
                (<[this := fst (take_fields o)]>
                   (<[other := snd (take_fields o)]> (objs w))))
  | _, _ => None
  end.

(** [~Arena()] followed by the end of the object's lifetime. *)
Definition destroy (l : nat) (w : World) : option World :=
  match objs w !! l with
  | Some a => Some (mkWorld (release a (heap w)) (mem w) (delete l (objs w)))
  | None => None
  end.

(** A member function that only touches the fields of the arena at [l]. *)
Definition on_arena (l : nat) (f : Arena -> Arena) (w : World) : option World :=
  match objs w !! l with
  | Some a => Some (mkWorld (heap w) (mem w) (<[l := f a]> (objs w)))
  | None => None
  end.

(** What a client program does with arenas, one statement at a time. *)
Inductive op : Type :=
| OpConstruct (l : nat)
| OpConstructSized (l : nat) (capacity p : Z)
| OpMoveConstruct (l other : nat)
| OpMoveAssign (this other : nat)
| OpAllocate (l : nat) (size alignment : Z)
| OpAllocateT (l : nat) (T : CType) (count : Z)
| OpReset (l : nat)
| OpDestroy (l : nat)
| OpStore (addr byte : Z).

Definition step (w : World) (o : op) : option World :=
  match o with
  | OpConstruct l => construct_default l w
  | OpConstructSized l capacity p => construct_sized l capacity p w
  | OpMoveConstruct l other => move_construct l other w
  | OpMoveAssign this other => move_assign this other w
  | OpAllocate l size alignment =>
      if in_rangeb size && in_rangeb alignment
      then on_arena l (fun a => snd (allocate a size alignment)) w
      else None
  | OpAllocateT l T count =>
      if in_rangeb count && (0 <? sizeof T) && in_rangeb (sizeof T) && in_rangeb (alignof T)
      then on_arena l (fun a => snd (fst (allocate_T T a count))) w
      else None
  | OpReset l => on_arena l reset w
  | OpDestroy l => destroy l w
  | OpStore addr byte => Some (mkWorld (heap w) (<[addr := byte]> (mem w)) (objs w))
  end.

Fixpoint run (w : World) (os : list op) : option World :=
  match os with
  | [] => Some w
  | o :: rest =>
      match step w o with
      | Some w' => run w' rest
      | None => None
      end
  end.

(** The worlds a program can be in. *)
Definition reachable (w : World) : Prop :=
  exists os, run World_empty os = Some w.

(** ** The class invariant *)

(** The storage an arena holds: none, with capacity 0, or a block at a
    non-null address that ends inside the address space. *)
Definition storage_ok (a : Arena) : Prop :=
  (buffer_ a = nullptr /\ capacity_ a = 0) \/
  (0 < buffer_ a /\ buffer_ a + capacity_ a <= SIZE_MAX).

Definition wf (a : Arena) : Prop :=
  0 <= pos_ a <= capacity_ a /\
  capacity_ a <= PTRDIFF_MAX /\
  storage_ok a.

(** The buffer is aligned as [::operator new] aligns. *)
Definition new_aligned (a : Arena) : Prop :=
  buffer_ a mod DEFAULT_NEW_ALIGNMENT = 0.

Global Instance storage_ok_dec a : Decision (storage_ok a).
Proof. unfold storage_ok. apply _. Defined.

Global Instance wf_dec a : Decision (wf a).
Proof. unfold wf. apply _. Defined.

(** Every arena object is well formed, with a buffer aligned by
    [::operator new], and owns the live block at its buffer, and no two
    objects hold the same block. *)
Definition World_inv (w : World) : Prop :=
  (forall l a, objs w !! l = Some a ->
     wf a /\ new_aligned a /\
     (buffer_ a <> nullptr -> heap w !! buffer_ a = Some (capacity_ a))) /\
  (forall l1 l2 a1 a2, objs w !! l1 = Some a1 -> objs w !! l2 = Some a2 ->
     buffer_ a1 <> nullptr -> buffer_ a1 = buffer_ a2 -> l1 = l2).

(** [x] is a power of two. *)
Definition power_of_two (x : Z) : Prop := exists k, 0 <= k /\ x = 2 ^ k.

(** ** A small program

    [Arena a0(1024); a0.allocate(100, 1); Arena a1(512);] with the two
    buffers at 4096 and 8192, and the world it ends in. *)
Definition example_program : list op :=
  [OpConstructSized 0 1024 4096; OpAllocate 0 100 1; OpConstructSized 1 512 8192].

Definition example_world : World :=
  mkWorld {[4096 := 1024; 8192 := 512]} ∅
          {[0%nat := mkArena 4096 1024 100; 1%nat := mkArena 8192 512 0]}.

(** ** Accounting *)

(** The bytes handed out in a list of ranges [(pointer, size)]. *)
Definition total_size (rs : list (Z * Z)) : Z :=
  fold_right (fun r acc => snd r + acc) 0 rs.

(** Every live block of the free store is the buffer of a live arena. *)
Definition no_leak (w : World) : Prop :=
  forall p n, heap w !! p = Some n ->
    exists l a, objs w !! l = Some a /\ buffer_ a = p /\ buffer_ a <> nullptr.

(** * Properties *)

(** ** Arithmetic on [size_t] *)

Lemma modulus_val : modulus = 18446744073709551616.
Proof. reflexivity. Qed.

Lemma SIZE_MAX_val : SIZE_MAX = 18446744073709551615.
Proof. reflexivity. Qed.

Lemma PTRDIFF_MAX_val : PTRDIFF_MAX = 9223372036854775807.
Proof. reflexivity. Qed.

Ltac size_consts :=
  rewrite ?SIZE_MAX_val, ?PTRDIFF_MAX_val, ?modulus_val in *.

Lemma wrap_small z : 0 <= z <= SIZE_MAX -> wrap z = z.
Proof.
  intros H. unfold wrap. apply Z.mod_small. size_consts. lia.
Qed.

Lemma wrap_bounds z : 0 <= wrap z <= SIZE_MAX.
Proof.
  unfold wrap. pose proof (Z.mod_pos_bound z modulus). size_consts. lia.
Qed.

Lemma wrap_overflow z : SIZE_MAX < z <= 2 * SIZE_MAX -> wrap z = z - modulus.
Proof.
  intros H. unfold wrap.
  symmetry. apply (Z.mod_unique z modulus 1 (z - modulus)); size_consts; lia.
Qed.

Lemma in_rangeb_spec z : in_rangeb z = true <-> in_range z.
Proof.
  unfold in_rangeb, in_range. rewrite andb_true_iff, !Z.leb_le. tauto.
Qed.

(** ** The helpers *)

Lemma land_pow2_pred k : 0 <= k -> Z.land (2 ^ k) (2 ^ k - 1) = 0.
Proof.
  intros Hk. replace (2 ^ k - 1) with (Z.ones k).
  - rewrite Z.land_ones by lia. apply Z.mod_same. lia.
  - rewrite Z.ones_equiv. lia.
Qed.

Lemma single_bit_pow2 x : 0 < x -> Z.land x (x - 1) = 0 -> x = 2 ^ Z.log2 x.
Proof.
  intros Hx Hland.
  destruct (Z.log2_spec x Hx) as [Hlo Hhi].
  destruct (Z.eq_dec x (2 ^ Z.log2 x)) as [|Hne]; [assumption|exfalso].
  assert (Hx1 : 0 < x - 1) by (pose proof (Z.pow_pos_nonneg 2 (Z.log2 x)); pose proof (Z.log2_nonneg x); lia).
  assert (Hlog : Z.log2 (x - 1) = Z.log2 x).
  { apply Z.log2_unique; [apply Z.log2_nonneg|]. lia. }
  pose proof (Z.bit_log2 x Hx) as Hb1.
  pose proof (Z.bit_log2 (x - 1) Hx1) as Hb2.
  rewrite Hlog in Hb2.
  assert (Hb : Z.testbit (Z.land x (x - 1)) (Z.log2 x) = true)
    by (rewrite Z.land_spec, Hb1, Hb2; reflexivity).
  rewrite Hland, Z.bits_0 in Hb. discriminate.
Qed.

(** The modelled [is_power_of_2] decides exactly the powers of two. *)
Lemma is_power_of_2_spec x : is_power_of_2 x = true <-> power_of_two x.
Proof.
  unfold is_power_of_2, power_of_two. rewrite andb_true_iff, Z.ltb_lt, Z.eqb_eq.
  split.
  - intros [Hx Hland]. exists (Z.log2 x). split; [apply Z.log2_nonneg|].
    now apply single_bit_pow2.
  - intros (k & Hk & ->). split; [apply Z.pow_pos_nonneg; lia|].
    now apply land_pow2_pred.
Qed.

Lemma is_power_of_2_pos x : is_power_of_2 x = true -> 0 < x.
Proof.
  unfold is_power_of_2. rewrite andb_true_iff, Z.ltb_lt. tauto.
Qed.

(** A power of two that fits a [size_t] is at most [2^63]. *)
Lemma is_power_of_2_bound x :
  is_power_of_2 x = true -> in_range x -> x <= PTRDIFF_MAX + 1.
Proof.
  intros Hp [_ Hhi]. apply is_power_of_2_spec in Hp as (k & Hk & ->).
  assert (k < 64).
  { apply (Z.pow_lt_mono_r_iff 2); [lia|lia|]. change (2 ^ 64) with modulus. size_consts. lia. }
  change (PTRDIFF_MAX + 1) with (2 ^ 63).
  apply Z.pow_le_mono_r; lia.
Qed.

(** [round_up value alignment] is a multiple of [alignment]. *)
Lemma round_up_divide v al : (al | round_up v al).
Proof. unfold round_up. apply Z.divide_factor_r. Qed.

(** ... that is not below [value] and less than one [alignment] above. *)
Lemma round_up_bounds v al : 0 < al -> v <= round_up v al < v + al.
Proof.
  intros Hal. unfold round_up.
  pose proof (Z.mul_div_le (v + al - 1) al Hal).
  pose proof (Z.mul_succ_div_gt (v + al - 1) al Hal).
  lia.
Qed.

(** ... and the least such multiple. *)
Lemma round_up_least v al m : 0 < al -> (al | m) -> v <= m -> round_up v al <= m.
Proof.
  intros Hal [q ->] Hv.
  pose proof (round_up_bounds v al Hal) as [_ Hlt].
  destruct (round_up_divide v al) as [q' Hq']. rewrite Hq' in *.
  assert (q' < q + 1) by (apply (Z.mul_lt_mono_pos_r al); lia).
  apply Z.mul_le_mono_nonneg_r; lia.
Qed.

Lemma round_up_aligned v al : 0 < al -> (al | v) -> round_up v al = v.
Proof.
  intros Hal Hdiv.
  pose proof (round_up_bounds v al Hal).
  pose proof (round_up_least v al v Hal Hdiv).
  lia.
Qed.

(** On a well-formed arena the rounding of the position fits a [size_t]:
    [align_up] returns the rounded position itself. *)
Lemma align_up_no_wrap v al :
  0 <= v <= PTRDIFF_MAX -> is_power_of_2 al = true -> in_range al ->
  align_up v al = round_up v al.
Proof.
  intros Hv Hp Hr. unfold align_up.
  pose proof (is_power_of_2_pos _ Hp).
  pose proof (is_power_of_2_bound _ Hp Hr).
  pose proof (round_up_bounds v al ltac:(assumption)).
  apply wrap_small. size_consts. lia.
Qed.

(** ** The byte-level [allocate] *)

Lemma allocate_reject a size al :
  is_power_of_2 al = false \/ size = 0 -> allocate a size al = (nullptr, a).
Proof.
  intros [H | ->]; unfold allocate.
  - now rewrite H.
  - now rewrite orb_true_r.
Qed.

(** The two tests of the second [if], read on unbounded integers. *)
Lemma bounds_test ap size cap :
  in_range ap -> in_range size -> in_range cap ->
  (add ap size <? ap) || (add ap size >? cap) = negb (ap + size <=? cap).
Proof.
  unfold in_range, add. intros Hap Hsize Hcap.
  destruct (Z_le_gt_dec (ap + size) SIZE_MAX) as [Hfit | Hover].
  - rewrite wrap_small by lia.
    destruct (Z.ltb_spec (ap + size) ap), (Z.gtb_spec (ap + size) cap),
      (Z.leb_spec (ap + size) cap); simpl; lia || reflexivity.
  - rewrite wrap_overflow by lia.
    destruct (Z.ltb_spec (ap + size - modulus) ap), (Z.leb_spec (ap + size) cap);
      simpl; size_consts; lia || reflexivity.
Qed.

Lemma allocate_unfold a size al :
  in_range size -> in_range (capacity_ a) ->
  is_power_of_2 al = true -> size <> 0 ->
  allocate a size al =
    let aligned_pos := align_up (pos_ a) al in
    if aligned_pos + size <=? capacity_ a
    then (ptr_add (buffer_ a) aligned_pos,
          mkArena (buffer_ a) (capacity_ a) (aligned_pos + size))
    else (nullptr, a).
Proof.
  intros Hsize Hcap Hp Hnz. unfold allocate. rewrite Hp.
  apply Z.eqb_neq in Hnz. rewrite Hnz. simpl.
  rewrite bounds_test by (assumption || apply wrap_bounds).
  destruct (Z.leb_spec (align_up (pos_ a) al + size) (capacity_ a)) as [Hle|]; simpl; [|reflexivity].
  unfold add. rewrite wrap_small; [reflexivity|].
  pose proof (wrap_bounds (round_up (pos_ a) al)). unfold align_up, in_range in *. lia.
Qed.

Lemma wf_in_range_capacity a : wf a -> in_range (capacity_ a).
Proof. unfold wf, in_range. size_consts. lia. Qed.

(** What [allocate] does on a well-formed arena, on unbounded integers. *)
Lemma allocate_checked a size al :
  wf a -> in_range size -> in_range al ->
  is_power_of_2 al = true -> size <> 0 ->
  allocate a size al =
    if round_up (pos_ a) al + size <=? capacity_ a
    then (buffer_ a + round_up (pos_ a) al,
          mkArena (buffer_ a) (capacity_ a) (round_up (pos_ a) al + size))
    else (nullptr, a).
Proof.
  intros Hwf Hsize Hal Hp Hnz.
  rewrite allocate_unfold by auto using wf_in_range_capacity. simpl.
  destruct Hwf as (Hpos & Hcap & Hst).
  rewrite align_up_no_wrap by (assumption || lia).
  destruct (Z.leb_spec (round_up (pos_ a) al + size) (capacity_ a)) as [Hle|]; [|reflexivity].
  pose proof (round_up_bounds (pos_ a) al (is_power_of_2_pos _ Hp)).
  unfold ptr_add. rewrite wrap_small; [reflexivity|].
  unfold storage_ok, in_range, nullptr in *. lia.
Qed.

Lemma allocate_buffer a size al : buffer_ (snd (allocate a size al)) = buffer_ a.
Proof.
  unfold allocate.
  destruct (negb (is_power_of_2 al) || (size =? 0)); [reflexivity|].
  simpl. destruct (_ || _); reflexivity.
Qed.

Lemma allocate_capacity a size al : capacity_ (snd (allocate a size al)) = capacity_ a.
Proof.
  unfold allocate.
  destruct (negb (is_power_of_2 al) || (size =? 0)); [reflexivity|].
  simpl. destruct (_ || _); reflexivity.
Qed.

(** The position never passes the capacity, whatever the request. *)
Lemma allocate_pos_le a size al :
  0 <= pos_ a <= capacity_ a ->
  0 <= pos_ (snd (allocate a size al)) <= capacity_ a.
Proof.
  intros Hpos. unfold allocate.
  destruct (negb (is_power_of_2 al) || (size =? 0)); [assumption|].
  simpl.
  destruct (Z.ltb_spec (add (align_up (pos_ a) al) size) (align_up (pos_ a) al));
    [assumption|].
  destruct (Z.gtb_spec (add (align_up (pos_ a) al) size) (capacity_ a)); simpl;
    [assumption|].
  pose proof (wrap_bounds (align_up (pos_ a) al + size)). unfold add in *. lia.
Qed.

Lemma allocate_wf a size al : wf a -> wf (snd (allocate a size al)).
Proof.
  intros (Hpos & Hcap & Hst). unfold wf, storage_ok.
  rewrite allocate_buffer, allocate_capacity.
  pose proof (allocate_pos_le a size al Hpos). unfold storage_ok in Hst. tauto.
Qed.

(** A successful call returns a pointer into the block, never [nullptr]. *)
Lemma allocate_success_nonnull a size al :
  storage_ok a -> in_range size ->
  allocate a size al <> (nullptr, a) -> fst (allocate a size al) <> nullptr.
Proof.
  intros Hst Hsize. unfold allocate.
  destruct (negb (is_power_of_2 al) || (size =? 0)) eqn:Hguard; [intros Hne; now contradiction Hne|].
  apply orb_false_iff in Hguard as [_ Hnz]. apply Z.eqb_neq in Hnz.
  simpl.
  destruct (Z.ltb_spec (add (align_up (pos_ a) al) size) (align_up (pos_ a) al)) as [|Hge];
    [intros Hne; now contradiction Hne|].
  destruct (Z.gtb_spec (add (align_up (pos_ a) al) size) (capacity_ a)) as [|Hle]; simpl;
    [intros Hne; now contradiction Hne|].
  intros _.
  assert (Hap : 0 <= align_up (pos_ a) al <= SIZE_MAX) by apply wrap_bounds.
  unfold add in *. unfold in_range in Hsize.
  destruct (Z_le_gt_dec (align_up (pos_ a) al + size) SIZE_MAX) as [Hfit | Hover].
  - rewrite wrap_small in Hge, Hle by lia.
    unfold ptr_add, storage_ok, nullptr in *.
    rewrite wrap_small; lia.
  - rewrite wrap_overflow in Hge by lia. size_consts. lia.
Qed.

(** The rejecting branch leaves the arena alone and the accepting branch
    never returns [nullptr]: the two outcomes are told apart by the
    pointer. *)
Lemma allocate_null_iff a size al :
  storage_ok a -> in_range size ->
  fst (allocate a size al) = nullptr <-> allocate a size al = (nullptr, a).
Proof.
  intros Hst Hsize. split.
  - intros Hnull.
    destruct (decide (allocate a size al = (nullptr, a))) as [|Hne]; [assumption|].
    now apply allocate_success_nonnull in Hne.
  - now intros ->.
Qed.

(** *** Alignment of the returned pointer *)

(** The offset of a returned pointer in the buffer is a multiple of the
    requested alignment. *)
Lemma allocate_offset_aligned a size al :
  wf a -> in_range size -> in_range al ->
  fst (allocate a size al) <> nullptr ->
  (al | fst (allocate a size al) - buffer_ a).
Proof.
  intros Hwf Hsize Hal Hok.
  destruct (is_power_of_2 al) eqn:Hp;
    [|rewrite allocate_reject in Hok by auto; now contradiction Hok].
  destruct (Z.eq_dec size 0) as [Hz|Hnz];
    [rewrite allocate_reject in Hok by auto; now contradiction Hok|].
  rewrite allocate_checked in * by assumption.
  destruct (_ <=? _); [|now contradiction Hok]. simpl.
  replace (buffer_ a + round_up (pos_ a) al - buffer_ a) with (round_up (pos_ a) al) by lia.
  apply round_up_divide.
Qed.

(** The address itself is aligned as soon as the buffer is. *)
Lemma allocate_address_aligned a size al :
  wf a -> in_range size -> in_range al ->
  (al | buffer_ a) ->
  fst (allocate a size al) <> nullptr ->
  (al | fst (allocate a size al)).
Proof.
  intros Hwf Hsize Hal Hbuf Hok.
  pose proof (allocate_offset_aligned a size al Hwf Hsize Hal Hok) as Hoff.
  replace (fst (allocate a size al))
    with ((fst (allocate a size al) - buffer_ a) + buffer_ a) by lia.
  now apply Z.divide_add_r.
Qed.

(** That is the case for every alignment up to the one [::operator new]
    guarantees. *)
Lemma allocate_address_aligned_default a size al :
  wf a -> new_aligned a -> in_range size -> in_range al ->
  al <= DEFAULT_NEW_ALIGNMENT ->
  fst (allocate a size al) <> nullptr ->
  (al | fst (allocate a size al)).
Proof.
  intros Hwf Hmod Hsize Hal Hle Hok.
  apply allocate_address_aligned; try assumption.
  destruct (is_power_of_2 al) eqn:Hp;
    [|rewrite allocate_reject in Hok by auto; now contradiction Hok].
  apply is_power_of_2_spec in Hp as (k & Hk & ->).
  unfold new_aligned in Hmod.
  apply Z.divide_trans with DEFAULT_NEW_ALIGNMENT;
    [|apply Z.mod_divide; [discriminate|assumption]].
  change DEFAULT_NEW_ALIGNMENT with (2 ^ 4) in *.
  assert (k <= 4) by (apply (Z.pow_le_mono_r_iff 2); lia).
  exists (2 ^ (4 - k)). rewrite <- Z.pow_add_r by lia. f_equal. lia.
Qed.

(** C1, at a block that [::operator new(2048)] may return: address 4112
    (0x1010) is aligned to 16 and not to 128 or 512.  The program
    [Arena arena(2048);] reaches an arena on that block; on it
    [allocate(1, 512)], and [allocate<T>()] for a [T] with [alignas(128)],
    succeed with offset 0, and the pointer they return is the buffer
    address itself, which is a multiple of neither alignment. *)
Theorem allocate_over_aligned_address :
  run World_empty [OpConstructSized 0 2048 4112]
    = Some (mkWorld {[4112 := 2048]} ∅ {[0%nat := Arena_sized 4112 2048]}) /\
  allocate (Arena_sized 4112 2048) 1 512 = (4112, mkArena 4112 2048 1) /\
  4112 mod 512 = 16 /\
  fst (allocate_T (mkCType 128 128) (Arena_sized 4112 2048) 1)
    = (4112, mkArena 4112 2048 128) /\
  4112 mod 128 = 16.
Proof.
  split; [vm_compute; reflexivity|].
  repeat split; reflexivity.
Qed.

(** *** When [allocate] fails *)

(** Well-formedness of an arena given by its three fields. *)
Ltac wf_concrete :=
  unfold wf, new_aligned, storage_ok, in_range; simpl;
  unfold nullptr, DEFAULT_NEW_ALIGNMENT; size_consts;
  repeat match goal with |- _ /\ _ => split end; lia || reflexivity.

Lemma wf_default : wf Arena_default.
Proof. wf_concrete. Qed.

(** The four causes of a rejection, on unbounded integers. *)
Lemma allocate_null_cases a size al :
  wf a -> in_range size -> in_range al ->
  fst (allocate a size al) = nullptr <->
    ~ power_of_two al \/ size = 0 \/
    SIZE_MAX < round_up (pos_ a) al + size \/
    capacity_ a < round_up (pos_ a) al + size.
Proof.
  intros Hwf Hsize Hal.
  assert (Hst : storage_ok a) by (destruct Hwf; tauto).
  assert (Hcap : capacity_ a <= SIZE_MAX) by (apply wf_in_range_capacity; assumption).
  rewrite allocate_null_iff by assumption.
  destruct (is_power_of_2 al) eqn:Hp.
  - destruct (Z.eq_dec size 0) as [Hz|Hnz].
    + rewrite allocate_reject by auto. tauto.
    + rewrite allocate_checked by assumption.
      assert (power_of_two al) by now apply is_power_of_2_spec.
      pose proof (round_up_bounds (pos_ a) al (is_power_of_2_pos _ Hp)).
      destruct (Z.leb_spec (round_up (pos_ a) al + size) (capacity_ a)).
      * split.
        -- intros [= Hptr _]. destruct Hwf as (? & _).
           unfold storage_ok, nullptr, in_range in *. lia.
        -- intros [?|[?|[?|?]]]; tauto || lia.
      * split; [right; right; right; assumption | reflexivity].
  - rewrite allocate_reject by auto.
    split; [intros _; left|reflexivity].
    rewrite <- is_power_of_2_spec. congruence.
Qed.

Lemma allocate_zero_capacity a size al :
  wf a -> in_range size -> in_range al ->
  capacity_ a = 0 -> fst (allocate a size al) = nullptr.
Proof.
  intros Hwf Hsize Hal Hzero. apply allocate_null_cases; try assumption.
  destruct (is_power_of_2 al) eqn:Hp;
    [|left; rewrite <- is_power_of_2_spec; congruence].
  destruct (Z.eq_dec size 0); [tauto|].
  pose proof (round_up_bounds (pos_ a) al (is_power_of_2_pos _ Hp)).
  destruct Hwf as (? & _). unfold in_range in Hsize. right; right; right. lia.
Qed.

(** C2: on a well-formed arena, [allocate(size, alignment)] returns
    [nullptr] exactly when the alignment is not a power of two, or the size
    is 0, or the aligned position plus the size overflows [size_t], or it
    exceeds the capacity; so every request on an arena of capacity 0 fails,
    and an overflowing request fails and leaves the arena as it was. *)
Theorem allocate_fails_iff a size al :
  wf a -> in_range size -> in_range al ->
  (fst (allocate a size al) = nullptr <->
     ~ power_of_two al \/ size = 0 \/
     SIZE_MAX < round_up (pos_ a) al + size \/
     capacity_ a < round_up (pos_ a) al + size) /\
  (capacity_ a = 0 -> fst (allocate a size al) = nullptr) /\
  (SIZE_MAX < round_up (pos_ a) al + size -> allocate a size al = (nullptr, a)).
Proof.
  intros Hwf Hsize Hal.
  split; [now apply allocate_null_cases|].
  split; [now apply allocate_zero_capacity|].
  intros Hover. apply allocate_null_iff; [destruct Hwf; tauto|assumption|].
  apply allocate_null_cases; tauto.
Qed.

Lemma allocate_fails_iff_witness :
  (fst (allocate (mkArena 4096 100 96) 8 64) = nullptr <->
     ~ power_of_two 64 \/ 8 = 0 \/
     SIZE_MAX < round_up 96 64 + 8 \/
     100 < round_up 96 64 + 8) /\
  (100 = 0 -> fst (allocate (mkArena 4096 100 96) 8 64) = nullptr) /\
  (SIZE_MAX < round_up 96 64 + 8 ->
   allocate (mkArena 4096 100 96) 8 64 = (nullptr, mkArena 4096 100 96)).
Proof.
  apply (allocate_fails_iff (mkArena 4096 100 96) 8 64).
  - wf_concrete.
  - wf_concrete.
  - wf_concrete.
Defined.

(** The overflow test does not depend on the arena being well formed: with
    the aligned position as the code computes it, a sum that does not fit a
    [size_t] is always rejected. *)
Lemma allocate_overflow_rejected a size al :
  in_range size -> SIZE_MAX < align_up (pos_ a) al + size ->
  allocate a size al = (nullptr, a).
Proof.
  intros Hsize Hover. unfold allocate.
  destruct (negb (is_power_of_2 al) || (size =? 0)); [reflexivity|]. simpl.
  assert (Hap : 0 <= align_up (pos_ a) al <= SIZE_MAX) by apply wrap_bounds.
  unfold add, in_range in *. rewrite wrap_overflow by lia.
  destruct (Z.ltb_spec (align_up (pos_ a) al + size - modulus) (align_up (pos_ a) al));
    [reflexivity|size_consts; lia].
Qed.

(** Nothing can be allocated from a default-constructed arena. *)
Lemma allocate_default_fails size al :
  in_range size -> in_range al ->
  allocate Arena_default size al = (nullptr, Arena_default).
Proof.
  intros Hsize Hal. pose proof wf_default as Hwf.
  apply allocate_null_iff; [destruct Hwf; tauto|assumption|].
  now apply allocate_zero_capacity.
Qed.

(** C3: when [allocate] returns [nullptr] the arena is exactly as before
    the call: same position (so the same [used()]), same capacity, same
    buffer. *)
Theorem allocate_failure_unchanged a size al :
  storage_ok a -> in_range size ->
  fst (allocate a size al) = nullptr ->
  snd (allocate a size al) = a /\
  used (snd (allocate a size al)) = used a /\
  capacity (snd (allocate a size al)) = capacity a /\
  buffer_ (snd (allocate a size al)) = buffer_ a.
Proof.
  intros Hst Hsize Hnull.
  apply allocate_null_iff in Hnull; [|assumption..].
  rewrite Hnull. simpl. auto.
Qed.

Lemma allocate_failure_unchanged_witness :
  snd (allocate (mkArena 4096 100 10) 0 3) = mkArena 4096 100 10 /\
  used (snd (allocate (mkArena 4096 100 10) 0 3)) = used (mkArena 4096 100 10) /\
  capacity (snd (allocate (mkArena 4096 100 10) 0 3)) = capacity (mkArena 4096 100 10) /\
  buffer_ (snd (allocate (mkArena 4096 100 10) 0 3)) = buffer_ (mkArena 4096 100 10).
Proof.
  apply (allocate_failure_unchanged (mkArena 4096 100 10) 0 3).
  - wf_concrete.
  - wf_concrete.
  - reflexivity.
Defined.

(** *** What a successful [allocate] returns *)

(** [used()] never decreases across a call to [allocate]. *)
Lemma allocate_used_mono a size al :
  wf a -> in_range size -> in_range al ->
  used a <= used (snd (allocate a size al)).
Proof.
  intros Hwf Hsize Hal. unfold used.
  destruct (is_power_of_2 al) eqn:Hp; [|rewrite allocate_reject by auto; simpl; lia].
  destruct (Z.eq_dec size 0); [rewrite allocate_reject by auto; simpl; lia|].
  rewrite allocate_checked by assumption.
  pose proof (round_up_bounds (pos_ a) al (is_power_of_2_pos _ Hp)).
  unfold in_range in Hsize.
  destruct (_ <=? _); simpl; lia.
Qed.

(** C6: on success the pointer is [buffer_ + aligned_pos] and the new
    position, which [used()] reports, is [aligned_pos + size], where
    [aligned_pos] is the least multiple of the alignment that is not below
    the position before the call; and no call to [allocate], successful or
    not, makes [used()] smaller. *)
Theorem allocate_success_result a size al :
  wf a -> in_range size -> in_range al ->
  (fst (allocate a size al) <> nullptr ->
     (al | round_up (pos_ a) al) /\
     pos_ a <= round_up (pos_ a) al /\
     (forall m, (al | m) -> pos_ a <= m -> round_up (pos_ a) al <= m) /\
     fst (allocate a size al) = buffer_ a + round_up (pos_ a) al /\
     used (snd (allocate a size al)) = round_up (pos_ a) al + size) /\
  used a <= used (snd (allocate a size al)).
Proof.
  intros Hwf Hsize Hal. split; [|now apply allocate_used_mono].
  intros Hok.
  destruct (is_power_of_2 al) eqn:Hp;
    [|rewrite allocate_reject in Hok by auto; now contradiction Hok].
  destruct (Z.eq_dec size 0) as [Hz|Hnz];
    [rewrite allocate_reject in Hok by auto; now contradiction Hok|].
  pose proof (is_power_of_2_pos _ Hp) as Hpos.
  rewrite allocate_checked in * by assumption.
  destruct (_ <=? _); [|now contradiction Hok]. simpl.
  split; [apply round_up_divide|].
  split; [now apply round_up_bounds|].
  split; [intros m; now apply round_up_least|].
  split; reflexivity.
Qed.

Lemma allocate_success_result_witness :
  ((8 | round_up 1 8) /\
   1 <= round_up 1 8 /\
   (forall m, (8 | m) -> 1 <= m -> round_up 1 8 <= m) /\
   fst (allocate (mkArena 4096 1024 1) 8 8) = 4096 + round_up 1 8 /\
   used (snd (allocate (mkArena 4096 1024 1) 8 8)) = round_up 1 8 + 8) /\
  used (mkArena 4096 1024 1) <= used (snd (allocate (mkArena 4096 1024 1) 8 8)).
Proof.
  destruct (allocate_success_result (mkArena 4096 1024 1) 8 8) as [Hok Hmono];
    [wf_concrete..|].
  split; [|exact Hmono].
  apply Hok. vm_compute. discriminate.
Defined.

(** *** The typed [allocate<T>] *)

Lemma overflow_test n count :
  0 < n -> SIZE_MAX < count * n <-> SIZE_MAX / n < count.
Proof.
  intros Hn. split.
  - intros H. apply Z.div_lt_upper_bound; lia.
  - intros H.
    pose proof (Z.mul_succ_div_gt SIZE_MAX n Hn).
    assert (n * Z.succ (SIZE_MAX / n) <= n * count) by (apply Z.mul_le_mono_nonneg_l; lia).
    lia.
Qed.

(** C9: [allocate<T>(count)] returns [nullptr] without a call to the
    byte-level [allocate] whenever [count * sizeof(T)] does not fit a
    [size_t], which is the test [count > SIZE_MAX / sizeof(T)]; otherwise
    it makes the one call [allocate(count * sizeof(T), alignof(T))] and
    returns its result. *)
Theorem allocate_T_overflow_guard T a count :
  0 < sizeof T -> in_range count ->
  (SIZE_MAX < count * sizeof T <-> SIZE_MAX / sizeof T < count) /\
  (SIZE_MAX < count * sizeof T ->
     allocate_T T a count = ((nullptr, a), [])) /\
  (count * sizeof T <= SIZE_MAX ->
     allocate_T T a count =
       (allocate a (count * sizeof T) (alignof T),
        [ByteAllocate (count * sizeof T) (alignof T)])).
Proof.
  intros Hn Hcount.
  pose proof (overflow_test (sizeof T) count Hn) as Htest.
  split; [exact Htest|]. unfold allocate_T. split.
  - intros Hover. apply Htest in Hover.
    destruct (Z.gtb_spec count (SIZE_MAX / sizeof T)); [reflexivity|lia].
  - intros Hfit.
    destruct (Z.gtb_spec count (SIZE_MAX / sizeof T)) as [Hgt|_]; [apply Htest in Hgt; lia|].
    simpl. unfold mul. unfold in_range in Hcount.
    rewrite wrap_small by nia.
    now rewrite (Z.mul_comm (sizeof T)).
Qed.

Lemma allocate_T_overflow_guard_witness :
  allocate_T (mkCType 4 4) (mkArena 4096 1024 0) 10
    = (allocate (mkArena 4096 1024 0) 40 4, [ByteAllocate 40 4]) /\
  allocate_T (mkCType 8 8) (mkArena 4096 1024 0) (2 ^ 61)
    = ((nullptr, mkArena 4096 1024 0), []).
Proof.
  split.
  - apply (allocate_T_overflow_guard (mkCType 4 4) (mkArena 4096 1024 0) 10).
    + simpl. lia.
    + wf_concrete.
    + simpl. size_consts. lia.
  - apply (allocate_T_overflow_guard (mkCType 8 8) (mkArena 4096 1024 0) (2 ^ 61)).
    + simpl. lia.
    + wf_concrete.
    + simpl. size_consts. lia.
Defined.

(** C10: [allocate<T>(0)] returns [nullptr] and leaves the arena as it
    was, in every arena state and for every [T]; the byte-level call it
    makes has total size 0 and is rejected by the [size == 0] test. *)
Theorem allocate_T_zero_count T a :
  fst (allocate_T T a 0) = (nullptr, a) /\
  mul (sizeof T) 0 = 0 /\
  allocate a 0 (alignof T) = (nullptr, a).
Proof.
  assert (Hz : mul (sizeof T) 0 = 0) by (unfold mul; now rewrite Z.mul_0_r).
  assert (Hrej : allocate a 0 (alignof T) = (nullptr, a)) by (apply allocate_reject; auto).
  split; [|auto]. unfold allocate_T.
  destruct (0 >? SIZE_MAX / sizeof T); [reflexivity|].
  simpl. now rewrite Hz.
Qed.

(** For a real type, whose size is positive, that call is made. *)
Lemma allocate_T_zero_count_calls T a :
  0 < sizeof T -> snd (allocate_T T a 0) = [ByteAllocate 0 (alignof T)].
Proof.
  intros Hn. unfold allocate_T.
  assert (0 <= SIZE_MAX / sizeof T) by (apply Z.div_pos; [size_consts|]; lia).
  destruct (Z.gtb_spec 0 (SIZE_MAX / sizeof T)); [lia|].
  simpl. unfold mul. now rewrite Z.mul_0_r.
Qed.

(** A returned pointer belongs to the arena. *)
Lemma allocate_owns a size al :
  wf a -> in_range size -> in_range al ->
  fst (allocate a size al) <> nullptr ->
  owns (snd (allocate a size al)) (fst (allocate a size al)) = true.
Proof.
  intros Hwf Hsize Hal Hok. unfold owns.
  rewrite allocate_buffer, allocate_capacity.
  destruct (is_power_of_2 al) eqn:Hp;
    [|rewrite allocate_reject in Hok by auto; now contradiction Hok].
  destruct (Z.eq_dec size 0) as [Hz|Hnz];
    [rewrite allocate_reject in Hok by auto; now contradiction Hok|].
  rewrite allocate_checked in * by assumption.
  pose proof (round_up_bounds (pos_ a) al (is_power_of_2_pos _ Hp)).
  destruct (Z.leb_spec (round_up (pos_ a) al + size) (capacity_ a));
    [|now contradiction Hok].
  simpl in *. destruct Hwf as (Hpos & _ & Hst).
  unfold ptr_add, storage_ok, nullptr, in_range in *.
  rewrite wrap_small by lia.
  apply andb_true_iff. split; [apply Z.geb_le|apply Z.ltb_lt]; lia.
Qed.

(** The bound on the capacity in [wf] matters to the rounding: past
    [PTRDIFF_MAX] the next multiple of a large alignment may not fit a
    [size_t].  No block of that size comes out of [::operator new]. *)
Example align_up_past_size_max :
  round_up (2 ^ 63 + 1) (2 ^ 63) = 2 ^ 64 /\ align_up (2 ^ 63 + 1) (2 ^ 63) = 0.
Proof. split; reflexivity. Qed.

(** *** Successive allocations *)

(** One call either is rejected, or hands out the bytes from the aligned
    position to the new position. *)
Lemma allocate_step a size al :
  wf a -> in_range size -> in_range al ->
  allocate a size al = (nullptr, a) \/
  (fst (allocate a size al) <> nullptr /\ 0 < size /\
   buffer_ a + pos_ a <= fst (allocate a size al) /\
   fst (allocate a size al) + size = buffer_ a + pos_ (snd (allocate a size al))).
Proof.
  intros Hwf Hsize Hal.
  destruct (is_power_of_2 al) eqn:Hp; [|left; apply allocate_reject; auto].
  destruct (Z.eq_dec size 0) as [Hz|Hnz]; [left; apply allocate_reject; auto|].
  assert (Hnn : allocate a size al <> (nullptr, a) -> fst (allocate a size al) <> nullptr)
    by (apply allocate_success_nonnull; [destruct Hwf; tauto|assumption]).
  rewrite allocate_checked in * by assumption.
  pose proof (round_up_bounds (pos_ a) al (is_power_of_2_pos _ Hp)).
  destruct (Z.leb_spec (round_up (pos_ a) al + size) (capacity_ a)); [right|now left].
  unfold in_range in Hsize.
  assert (Hne : (buffer_ a + round_up (pos_ a) al,
                 mkArena (buffer_ a) (capacity_ a) (round_up (pos_ a) al + size))
                <> (nullptr, a)).
  { intros [= _ Ha]. apply (f_equal pos_) in Ha. simpl in Ha. lia. }
  split; [auto|]. simpl. lia.
Qed.

(** The ranges handed out by successive calls lie between the position at
    the start and the position at the end, in call order. *)
Lemma allocate_all_ordered a reqs :
  wf a -> Forall (fun r => in_range (fst r) /\ in_range (snd r)) reqs ->
  buffer_ (snd (allocate_all a reqs)) = buffer_ a /\
  capacity_ (snd (allocate_all a reqs)) = capacity_ a /\
  wf (snd (allocate_all a reqs)) /\
  pos_ a <= pos_ (snd (allocate_all a reqs)) /\
  Forall (fun r => buffer_ a + pos_ a <= fst r /\ 0 < snd r /\
                   fst r + snd r <= buffer_ a + pos_ (snd (allocate_all a reqs)))
         (fst (allocate_all a reqs)) /\
  (forall (i j : nat) r1 r2, (i < j)%nat ->
     fst (allocate_all a reqs) !! i = Some r1 ->
     fst (allocate_all a reqs) !! j = Some r2 ->
     fst r1 + snd r1 <= fst r2).
Proof.
  intros Hwf Hreqs. revert a Hwf.
  induction Hreqs as [|[size al] rest [Hsize Hal] _ IH]; intros a Hwf.
  - simpl. split; [reflexivity|]. split; [reflexivity|]. split; [assumption|].
    split; [lia|]. split; [constructor|].
    intros i j r1 r2 _ H. destruct i; discriminate H.
  - simpl in Hsize, Hal. simpl.
    pose proof (allocate_wf a size al Hwf) as Hwf'.
    pose proof (allocate_buffer a size al) as Hbuf.
    pose proof (allocate_capacity a size al) as Hcap.
    destruct (IH _ Hwf') as (IHbuf & IHcap & IHwf & IHpos & IHall & IHord).
    rewrite Hbuf in *. rewrite Hcap in *.
    destruct (allocate_step a size al Hwf Hsize Hal) as [Hrej | (Hok & Hpos & Hlo & Hhi)].
    + rewrite Hrej in *. simpl in *. auto 10.
    + apply Z.eqb_neq in Hok. rewrite Hok. simpl.
      split; [assumption|]. split; [assumption|]. split; [assumption|].
      split; [lia|]. split.
      * constructor; [simpl; lia|].
        eapply Forall_impl; [exact IHall|]. simpl. intros r ?. lia.
      * intros i j r1 r2 Hij H1 H2.
        destruct j as [|j]; [lia|]. simpl in H2.
        destruct i as [|i].
        -- injection H1 as <-. simpl.
           rewrite Forall_forall in IHall.
           apply list_elem_of_lookup_2 in H2.
           specialize (IHall _ H2). lia.
        -- simpl in H1. apply (IHord i j); [lia|assumption..].
Qed.

(** C5: the byte ranges returned by the successful calls of any sequence
    of [allocate] calls with no [reset] in between are pairwise disjoint,
    and each lies within the [capacity_] bytes of the region, counted from
    its start. *)
Theorem allocate_ranges_disjoint a reqs :
  wf a -> Forall (fun r => in_range (fst r) /\ in_range (snd r)) reqs ->
  (forall r, r ∈ fst (allocate_all a reqs) ->
     0 <= fst r - buffer_ a /\ 0 < snd r /\
     (fst r - buffer_ a) + snd r <= capacity_ a) /\
  (forall (i j : nat) r1 r2, i <> j ->
     fst (allocate_all a reqs) !! i = Some r1 ->
     fst (allocate_all a reqs) !! j = Some r2 ->
     range_disjoint r1 r2).
Proof.
  intros Hwf Hreqs.
  destruct (allocate_all_ordered a reqs Hwf Hreqs)
    as (_ & Hcap & Hwf' & _ & Hall & Hord).
  split.
  - intros r Hr. rewrite Forall_forall in Hall.
    specialize (Hall _ Hr).
    destruct Hwf as (Hpos & _). destruct Hwf' as (Hpos' & _).
    rewrite Hcap in Hpos'. lia.
  - intros i j r1 r2 Hij H1 H2. unfold range_disjoint.
    destruct (Nat.lt_total i j) as [Hlt | [Heq | Hgt]]; [|contradiction|].
    + left. eapply Hord; eassumption.
    + right. eapply Hord; eassumption.
Qed.

Lemma allocate_ranges_disjoint_witness :
  (forall r, r ∈ fst (allocate_all (mkArena 4096 64 0) [(10, 1); (0, 4); (8, 8); (100, 1); (4, 16)]) ->
     0 <= fst r - 4096 /\ 0 < snd r /\ (fst r - 4096) + snd r <= 64) /\
  (forall (i j : nat) r1 r2, i <> j ->
     fst (allocate_all (mkArena 4096 64 0) [(10, 1); (0, 4); (8, 8); (100, 1); (4, 16)]) !! i = Some r1 ->
     fst (allocate_all (mkArena 4096 64 0) [(10, 1); (0, 4); (8, 8); (100, 1); (4, 16)]) !! j = Some r2 ->
     range_disjoint r1 r2).
Proof.
  apply (allocate_ranges_disjoint (mkArena 4096 64 0) [(10, 1); (0, 4); (8, 8); (100, 1); (4, 16)]).
  - wf_concrete.
  - repeat constructor; simpl; wf_concrete.
Defined.

Example allocate_all_example :
  allocate_all (mkArena 4096 64 0) [(10, 1); (0, 4); (8, 8); (100, 1); (4, 16)]
  = ([(4096, 10); (4112, 8); (4128, 4)], mkArena 4096 64 36).
Proof. reflexivity. Qed.

(** ** The invariant of the world *)

Lemma World_inv_empty : World_inv World_empty.
Proof.
  split.
  - intros l a H. simpl in H. rewrite lookup_empty in H. discriminate.
  - intros l1 l2 a1 a2 H. simpl in H. rewrite lookup_empty in H. discriminate.
Qed.

Lemma wf_moved a : wf a -> wf (mkArena (buffer_ a) (capacity_ a) (pos_ a)).
Proof. now destruct a. Qed.

Lemma wf_reset a : wf a -> wf (reset a).
Proof.
  unfold wf, storage_ok, reset. simpl. intros (? & ? & ?).
  repeat split; try assumption; lia.
Qed.

Lemma release_lookup_ne t (h : gmap Z Z) p :
  p <> buffer_ t -> release t h !! p = h !! p.
Proof.
  intros Hne. unfold release, operator_delete.
  destruct (buffer_ t =? nullptr); [reflexivity|].
  now apply lookup_delete_ne.
Qed.

(** A member function that keeps the buffer and the capacity and the
    class invariant keeps the invariant of the world. *)
Lemma on_arena_inv l f w w' :
  (forall a, wf a -> wf (f a)) ->
  (forall a, buffer_ (f a) = buffer_ a) ->
  (forall a, capacity_ (f a) = capacity_ a) ->
  World_inv w -> on_arena l f w = Some w' -> World_inv w'.
Proof.
  intros Hwf Hbuf Hcap [Hown Huniq] Hstep. unfold on_arena in Hstep.
  destruct (objs w !! l) as [a|] eqn:Hl; [|discriminate].
  injection Hstep as <-.
  assert (Hback : forall l0 b, <[l := f a]> (objs w) !! l0 = Some b ->
            exists b0, objs w !! l0 = Some b0 /\ buffer_ b = buffer_ b0 /\
                       capacity_ b = capacity_ b0 /\ (wf b0 -> wf b)).
  { intros l0 b. rewrite lookup_insert. case_decide as Heq.
    - subst l0. intros [= <-]. exists a. auto.
    - intros Hb. exists b. auto. }
  split; simpl.
  - intros l0 b Hb. destruct (Hback _ _ Hb) as (b0 & Hb0 & Hbb & -> & Hwfb).
    unfold new_aligned. rewrite Hbb.
    destruct (Hown _ _ Hb0) as (? & ? & ?). auto.
  - intros l1 l2 b1 b2 H1 H2.
    destruct (Hback _ _ H1) as (c1 & Hc1 & -> & _).
    destruct (Hback _ _ H2) as (c2 & Hc2 & -> & _).
    now apply Huniq.
Qed.

Lemma construct_default_inv l w w' :
  World_inv w -> construct_default l w = Some w' -> World_inv w'.
Proof.
  intros [Hown Huniq] Hstep. unfold construct_default in Hstep.
  destruct (objs w !! l) eqn:Hl; [discriminate|]. injection Hstep as <-.
  split; simpl.
  - intros l0 b. rewrite lookup_insert. case_decide.
    + intros [= <-]. split; [apply wf_default|]. split; [reflexivity|].
      simpl. congruence.
    + apply Hown.
  - intros l1 l2 b1 b2. rewrite !lookup_insert.
    repeat case_decide; subst; intros Hb1 Hb2; simplify_eq; simpl;
      try congruence; eauto.
Qed.

Lemma construct_sized_inv l capacity p w w' :
  World_inv w -> construct_sized l capacity p w = Some w' -> World_inv w'.
Proof.
  intros [Hown Huniq] Hstep. unfold construct_sized in Hstep.
  destruct (objs w !! l) eqn:Hl; [discriminate|].
  destruct (in_rangeb capacity && new_ok (heap w) p capacity) eqn:Hok; [|discriminate].
  injection Hstep as <-.
  apply andb_true_iff in Hok as [_ Hnew]. unfold new_ok in Hnew.
  repeat (apply andb_true_iff in Hnew as [Hnew ?]).
  apply Z.ltb_lt in Hnew.
  repeat match goal with
         | H : (_ <=? _) = true |- _ => apply Z.leb_le in H
         | H : (_ =? _) = true |- _ => apply Z.eqb_eq in H
         | H : bool_decide _ = true |- _ => apply bool_decide_eq_true in H
         end.
  assert (Hfresh : forall l0 b, objs w !! l0 = Some b -> buffer_ b <> nullptr -> buffer_ b <> p).
  { intros l0 b Hb Hnn Heq. destruct (Hown _ _ Hb) as (_ & _ & Hlive).
    specialize (Hlive Hnn). congruence. }
  split; simpl.
  - intros l0 b. rewrite lookup_insert. case_decide.
    + intros [= <-]. simpl. split; [|split].
      * unfold wf, storage_ok. simpl. repeat split; assumption || lia.
      * assumption.
      * intros _. apply lookup_insert_eq.
    + intros Hb. destruct (Hown _ _ Hb) as (Hwfb & Hmod & Hlive).
      split; [assumption|]. split; [assumption|].
      intros Hnn. rewrite lookup_insert_ne; [auto|].
      intros Heq. now apply (Hfresh _ _ Hb Hnn).
  - intros l1 l2 b1 b2. rewrite !lookup_insert.
    repeat case_decide; subst; intros Hb1 Hb2; simplify_eq; simpl; try congruence.
    + intros _ Heq. exfalso. apply (Hfresh _ _ Hb2); [|congruence].
      unfold nullptr. lia.
    + intros Hnn Heq. exfalso. now apply (Hfresh _ _ Hb1).
    + eauto.
Qed.

(** What a move leaves in the object store: the destination holds the
    fields of the source and the source is empty. *)
Lemma moved_lookup (m : gmap nat Arena) dst src o l b :
  dst <> src -> m !! src = Some o ->
  <[dst := mkArena (buffer_ o) (capacity_ o) (pos_ o)]>
    (<[src := mkArena nullptr 0 0]> m) !! l = Some b ->
  (l = dst /\ b = o) \/ (l = src /\ b = Arena_default) \/
  (l <> dst /\ l <> src /\ m !! l = Some b).
Proof.
  intros Hne Hsrc. rewrite !lookup_insert. repeat case_decide; subst.
  - intros [= <-]. left. now destruct o.
  - intros [= <-]. right. left. auto.
  - intros Hb. right. right. auto.
Qed.

(** A move keeps the invariant when the block the destination held, if
    any, is the only one released. *)
Lemma moved_inv w dst src o h :
  World_inv w -> dst <> src -> objs w !! src = Some o ->
  (forall l b, l <> dst -> objs w !! l = Some b -> buffer_ b <> nullptr ->
     h !! buffer_ b = heap w !! buffer_ b) ->
  (forall b, objs w !! dst = Some b ->
     buffer_ b <> nullptr -> buffer_ b <> buffer_ o) ->
  World_inv (mkWorld h (mem w)
     (<[dst := mkArena (buffer_ o) (capacity_ o) (pos_ o)]>
        (<[src := mkArena nullptr 0 0]> (objs w)))).
Proof.
  intros [Hown Huniq] Hne Hsrc Hheap Hdst.
  split; simpl.
  - intros l b Hb.
    destruct (moved_lookup _ _ _ _ _ _ Hne Hsrc Hb)
      as [[-> ->] | [[-> ->] | (Hl1 & Hl2 & Hlb)]].
    + destruct (Hown _ _ Hsrc) as (Hwfo & Hmod & Hlive).
      split; [assumption|]. split; [assumption|].
      intros Hnn. rewrite (Hheap src o); auto.
    + split; [apply wf_default|]. split; [reflexivity|]. simpl. congruence.
    + destruct (Hown _ _ Hlb) as (Hwfb & Hmod & Hlive).
      split; [assumption|]. split; [assumption|].
      intros Hnn. rewrite (Hheap l b); auto.
  - intros l1 l2 b1 b2 H1 H2 Hnn Heq.
    destruct (moved_lookup _ _ _ _ _ _ Hne Hsrc H1)
      as [[-> ->] | [[-> ->] | (Hl1 & Hl1' & Hlb1)]];
    destruct (moved_lookup _ _ _ _ _ _ Hne Hsrc H2)
      as [[-> ->] | [[-> ->] | (Hl2 & Hl2' & Hlb2)]];
    try reflexivity; simpl in *; try congruence.
    + exfalso. apply Hl2'. symmetry. apply (Huniq src l2 o b2); assumption.
    + exfalso. apply Hl1'. apply (Huniq l1 src b1 o); assumption.
    + eapply Huniq; eassumption.
Qed.

Lemma move_construct_inv l other w w' :
  World_inv w -> move_construct l other w = Some w' -> World_inv w'.
Proof.
  intros Hinv Hstep. unfold move_construct, take_fields, exchange in Hstep. simpl in Hstep.
  destruct (objs w !! l) eqn:Hl; [discriminate|].
  destruct (objs w !! other) as [o|] eqn:Ho; [|discriminate].
  injection Hstep as <-.
  apply moved_inv; try assumption; [congruence|auto|congruence].
Qed.

Lemma move_assign_inv this other w w' :
  World_inv w -> move_assign this other w = Some w' -> World_inv w'.
Proof.
  intros Hinv Hstep. unfold move_assign, take_fields, exchange in Hstep. simpl in Hstep.
  destruct (objs w !! this) as [t|] eqn:Ht; [|discriminate].
  destruct (objs w !! other) as [o|] eqn:Ho; [|discriminate].
  case_decide as Hne; [now injection Hstep as <-|].
  injection Hstep as <-.
  destruct Hinv as [Hown Huniq].
  apply moved_inv; try assumption; [split; assumption| |].
  - intros l b Hl Hb Hnn. apply release_lookup_ne.
    intros Heq. apply Hl. apply (Huniq l this b t); assumption.
  - intros b Hb Hnn Heq. rewrite Ht in Hb. injection Hb as <-. apply Hne. apply (Huniq this other t o); assumption.
Qed.

Lemma destroy_inv l w w' :
  World_inv w -> destroy l w = Some w' -> World_inv w'.
Proof.
  intros [Hown Huniq] Hstep. unfold destroy in Hstep.
  destruct (objs w !! l) as [a|] eqn:Hl; [|discriminate].
  injection Hstep as <-.
  split; simpl.
  - intros l0 b Hb. apply lookup_delete_Some in Hb as [Hne Hb].
    destruct (Hown _ _ Hb) as (Hwfb & Hmod & Hlive).
    split; [assumption|]. split; [assumption|].
    intros Hnn. rewrite release_lookup_ne; [auto|].
    intros Heq. apply Hne. symmetry. apply (Huniq l0 l b a); assumption.
  - intros l1 l2 b1 b2 H1 H2.
    apply lookup_delete_Some in H1 as [_ H1].
    apply lookup_delete_Some in H2 as [_ H2].
    now apply Huniq.
Qed.

Lemma allocate_T_buffer T a count :
  buffer_ (snd (fst (allocate_T T a count))) = buffer_ a.
Proof.
  unfold allocate_T. destruct (_ >? _); [reflexivity|]. apply allocate_buffer.
Qed.

Lemma allocate_T_capacity T a count :
  capacity_ (snd (fst (allocate_T T a count))) = capacity_ a.
Proof.
  unfold allocate_T. destruct (_ >? _); [reflexivity|]. apply allocate_capacity.
Qed.

Lemma allocate_T_wf T a count : wf a -> wf (snd (fst (allocate_T T a count))).
Proof.
  intros Hwf. unfold allocate_T. destruct (_ >? _); [assumption|]. now apply allocate_wf.
Qed.

Lemma step_inv w o w' : World_inv w -> step w o = Some w' -> World_inv w'.
Proof.
  intros Hinv Hstep. destruct o; simpl in Hstep.
  - eapply construct_default_inv; eassumption.
  - eapply construct_sized_inv; eassumption.
  - eapply move_construct_inv; eassumption.
  - eapply move_assign_inv; eassumption.
  - destruct (_ && _); [|discriminate].
    eapply on_arena_inv; [| | |eassumption|eassumption]; simpl;
      auto using allocate_wf, allocate_buffer, allocate_capacity.
  - destruct (_ && _); [|discriminate].
    eapply on_arena_inv; [| | |eassumption|eassumption]; simpl;
      auto using allocate_T_wf, allocate_T_buffer, allocate_T_capacity.
  - eapply on_arena_inv; [| | |eassumption|eassumption];
      auto using wf_reset.
  - eapply destroy_inv; eassumption.
  - injection Hstep as <-. destruct Hinv as [Hown Huniq]. split; simpl; assumption.
Qed.

Lemma run_inv os : forall w w', World_inv w -> run w os = Some w' -> World_inv w'.
Proof.
  induction os as [|o os IH]; intros w w' Hinv Hrun; simpl in Hrun.
  - now injection Hrun as <-.
  - destruct (step w o) as [w1|] eqn:Hstep; [|discriminate].
    eapply IH; [|eassumption]. eapply step_inv; eassumption.
Qed.

Lemma reachable_inv w : reachable w -> World_inv w.
Proof.
  intros [os Hrun]. eapply run_inv; [apply World_inv_empty|eassumption].
Qed.

(** Every arena of a reachable world is well formed: the hypothesis [wf] of
    the statements on single arenas holds wherever a program can get. *)
Lemma reachable_wf w l a : reachable w -> objs w !! l = Some a -> wf a.
Proof.
  intros Hreach Hl. destruct (reachable_inv w Hreach) as [Hown _].
  now destruct (Hown _ _ Hl).
Qed.

(** ... and its buffer is aligned to [DEFAULT_NEW_ALIGNMENT]. *)
Lemma reachable_new_aligned w l a :
  reachable w -> objs w !! l = Some a -> new_aligned a.
Proof.
  intros Hreach Hl. destruct (reachable_inv w Hreach) as [Hown _].
  now destruct (Hown _ _ Hl) as (_ & ? & _).
Qed.

(** A rejected request changes nothing in the world either. *)
Lemma step_allocate_failure w l a size al :
  objs w !! l = Some a -> storage_ok a -> in_range size -> in_range al ->
  fst (allocate a size al) = nullptr ->
  step w (OpAllocate l size al) = Some w.
Proof.
  intros Hl Hst Hsize Hal Hnull. simpl.
  apply in_rangeb_spec in Hsize as Hs. apply in_rangeb_spec in Hal as Ha.
  rewrite Hs, Ha. simpl. unfold on_arena. rewrite Hl.
  apply allocate_null_iff in Hnull; [|assumption..]. rewrite Hnull. simpl.
  rewrite insert_id by assumption. now destruct w.
Qed.

(** ** Position and capacity *)

(** C4: in every world a program can reach by constructing arenas,
    allocating from them, resetting, moving and destroying them, the
    position of every arena lies between 0 and its capacity; so the
    subtraction in [available()] does not wrap and
    [available() + used() == capacity()]. *)
Theorem reachable_position_bounds w l a :
  reachable w -> objs w !! l = Some a ->
  0 <= pos_ a <= capacity_ a /\
  available a = capacity_ a - pos_ a /\
  add (available a) (used a) = capacity a.
Proof.
  intros Hreach Hl.
  pose proof (reachable_wf w l a Hreach Hl) as Hwf.
  pose proof (wf_in_range_capacity a Hwf) as Hcap.
  destruct Hwf as (Hpos & _). unfold in_range in Hcap.
  assert (Hav : available a = capacity_ a - pos_ a)
    by (unfold available, sub; apply wrap_small; lia).
  split; [assumption|]. split; [assumption|].
  rewrite Hav. unfold add, used, capacity.
  replace (capacity_ a - pos_ a + pos_ a) with (capacity_ a) by lia.
  apply wrap_small. lia.
Qed.

Lemma reachable_position_bounds_witness :
  0 <= pos_ (mkArena 4096 1024 20) <= capacity_ (mkArena 4096 1024 20) /\
  available (mkArena 4096 1024 20)
    = capacity_ (mkArena 4096 1024 20) - pos_ (mkArena 4096 1024 20) /\
  add (available (mkArena 4096 1024 20)) (used (mkArena 4096 1024 20))
    = capacity (mkArena 4096 1024 20).
Proof.
  apply (reachable_position_bounds
           (mkWorld {[4096 := 1024]} ∅
                    {[0%nat := Arena_default; 1%nat := mkArena 4096 1024 20]})
           1%nat (mkArena 4096 1024 20)).
  - exists [OpConstructSized 0 1024 4096; OpAllocate 0 100 1; OpMoveConstruct 1 0;
            OpReset 1; OpAllocate 1 10 8; OpAllocateT 1 (mkCType 4 4) 2].
    vm_compute. reflexivity.
  - vm_compute. reflexivity.
Defined.

(** ** Moves *)

(** C7: move construction and move assignment give the destination the
    buffer, capacity and position of the source, so that it reports the
    source's capacity and used values and owns the same, still live,
    block; they leave the source with no storage, capacity 0 and position
    0; and a move assignment of an arena to itself changes nothing. *)
Theorem move_transfers w dst src a :
  World_inv w -> objs w !! src = Some a ->
  (objs w !! dst = None ->
     exists w', move_construct dst src w = Some w' /\
       objs w' !! dst = Some a /\
       objs w' !! src = Some Arena_default /\
       heap w' = heap w /\ mem w' = mem w) /\
  (forall t, objs w !! dst = Some t -> dst <> src ->
     exists w', move_assign dst src w = Some w' /\
       objs w' !! dst = Some a /\
       objs w' !! src = Some Arena_default /\
       heap w' = release t (heap w) /\
       heap w' !! buffer_ a = heap w !! buffer_ a /\
       mem w' = mem w) /\
  move_assign src src w = Some w.
Proof.
  intros [Hown Huniq] Hsrc. split; [|split].
  - intros Hdst. unfold move_construct. rewrite Hdst, Hsrc.
    assert (dst <> src) by congruence.
    eexists. split; [reflexivity|]. simpl.
    rewrite lookup_insert_eq, lookup_insert_ne, lookup_insert_eq by congruence.
    now destruct a.
  - intros t Hdst Hne. unfold move_assign. rewrite Hdst, Hsrc.
    case_decide; [contradiction|].
    eexists. split; [reflexivity|]. simpl.
    rewrite lookup_insert_eq, lookup_insert_ne, lookup_insert_eq by congruence.
    split; [now destruct a|]. split; [reflexivity|]. split; [reflexivity|].
    split; [|reflexivity].
    unfold release, operator_delete.
    destruct (Z.eqb_spec (buffer_ t) nullptr) as [|Hnn]; [reflexivity|].
    apply lookup_delete_ne. intros Heq. apply Hne.
    apply (Huniq dst src t a); assumption.
  - unfold move_assign. rewrite Hsrc. case_decide; [reflexivity|contradiction].
Qed.

Example example_program_runs : run World_empty example_program = Some example_world.
Proof. vm_compute. reflexivity. Qed.

Lemma example_world_inv : World_inv example_world.
Proof. apply reachable_inv. exists example_program. apply example_program_runs. Qed.

Lemma move_transfers_witness :
  (exists w', move_construct 2 0 example_world = Some w' /\
     objs w' !! 2%nat = Some (mkArena 4096 1024 100) /\
     objs w' !! 0%nat = Some Arena_default /\
     heap w' = heap example_world /\ mem w' = mem example_world) /\
  (exists w', move_assign 1 0 example_world = Some w' /\
     objs w' !! 1%nat = Some (mkArena 4096 1024 100) /\
     objs w' !! 0%nat = Some Arena_default /\
     heap w' = release (mkArena 8192 512 0) (heap example_world) /\
     heap w' !! 4096 = heap example_world !! 4096 /\
     mem w' = mem example_world) /\
  move_assign 0 0 example_world = Some example_world.
Proof.
  destruct (move_transfers example_world 2 0 (mkArena 4096 1024 100))
    as (Hconstruct & _ & Hself);
    [apply example_world_inv | vm_compute; reflexivity |].
  destruct (move_transfers example_world 1 0 (mkArena 4096 1024 100))
    as (_ & Hassign & _);
    [apply example_world_inv | vm_compute; reflexivity |].
  split; [apply Hconstruct; vm_compute; reflexivity|].
  split; [|exact Hself].
  apply (Hassign (mkArena 8192 512 0)); [vm_compute; reflexivity | lia].
Defined.

(** ** [reset] *)

Lemma is_power_of_2_one : is_power_of_2 1 = true.
Proof. reflexivity. Qed.

Lemma round_up_zero_one : round_up 0 1 = 0.
Proof. reflexivity. Qed.

(** After a [reset] the whole capacity can be handed out again. *)
Lemma allocate_after_reset a :
  wf a -> 0 < capacity_ a ->
  allocate (reset a) (capacity_ a) 1
  = (buffer_ a, mkArena (buffer_ a) (capacity_ a) (capacity_ a)).
Proof.
  intros Hwf Hcap.
  pose proof (wf_in_range_capacity a Hwf).
  rewrite allocate_checked;
    [|now apply wf_reset|assumption|wf_concrete|reflexivity|simpl; lia].
  simpl. rewrite round_up_zero_one. simpl.
  rewrite Z.leb_refl. now rewrite Z.add_0_r.
Qed.

(** C8: [reset()] sets the position to 0, whatever it was, so that
    [used()] is 0 and [available()] is the capacity; it keeps the capacity
    and the buffer and does not touch the free store or the stored bytes; a
    second [reset()] changes nothing more; and the next allocation can take
    the whole capacity. *)
Theorem reset_rewinds w l a :
  objs w !! l = Some a -> wf a ->
  exists w', step w (OpReset l) = Some w' /\
    objs w' !! l = Some (reset a) /\
    heap w' = heap w /\ mem w' = mem w /\
    pos_ (reset a) = 0 /\ used (reset a) = 0 /\
    available (reset a) = capacity (reset a) /\
    capacity (reset a) = capacity a /\
    buffer_ (reset a) = buffer_ a /\
    reset (reset a) = reset a /\
    step w' (OpReset l) = Some w' /\
    (0 < capacity_ a ->
       allocate (reset a) (capacity_ a) 1
       = (buffer_ a, mkArena (buffer_ a) (capacity_ a) (capacity_ a))).
Proof.
  intros Hl Hwf. simpl. unfold on_arena. rewrite Hl.
  eexists. split; [reflexivity|]. simpl.
  rewrite lookup_insert_eq. simpl.
  pose proof (wf_in_range_capacity a Hwf) as Hcap. unfold in_range in Hcap.
  repeat (split; [reflexivity|]).
  split.
  { unfold available, capacity, sub. simpl. rewrite Z.sub_0_r. apply wrap_small. lia. }
  repeat (split; [reflexivity|]).
  split; [|now apply allocate_after_reset].
  unfold reset at 2. simpl. now rewrite insert_insert_eq.
Qed.

Lemma reset_rewinds_witness :
  exists w', step example_world (OpReset 0) = Some w' /\
    objs w' !! 0%nat = Some (mkArena 4096 1024 0) /\
    heap w' = heap example_world /\ mem w' = mem example_world /\
    used (reset (mkArena 4096 1024 100)) = 0 /\
    available (reset (mkArena 4096 1024 100)) = 1024 /\
    step w' (OpReset 0) = Some w' /\
    allocate (reset (mkArena 4096 1024 100)) 1024 1
    = (4096, mkArena 4096 1024 1024).
Proof.
  destruct (reset_rewinds example_world 0%nat (mkArena 4096 1024 100))
    as (w' & Hstep & Hobj & Hheap & Hmem & _ & Hused & Havail & _ & _ & _ & Hagain & Hreuse);
    [vm_compute; reflexivity | wf_concrete |].
  exists w'. repeat (split; [assumption|]).
  apply Hreuse. simpl. lia.
Defined.

(** * Further properties of the class *)

(** ** [owns] *)

(** On a well-formed arena [owns] is membership in the block. *)
Lemma owns_spec a p :
  wf a -> owns a p = true <-> buffer_ a <= p < buffer_ a + capacity_ a.
Proof.
  intros (Hpos & Hcap & Hst). unfold owns, ptr_add.
  rewrite wrap_small by (unfold storage_ok, nullptr in Hst; size_consts; lia).
  rewrite andb_true_iff, Z.geb_le, Z.ltb_lt. tauto.
Qed.

Lemma allocate_all_buffer reqs :
  forall a, buffer_ (snd (allocate_all a reqs)) = buffer_ a.
Proof.
  induction reqs as [|[size al] rest IH]; intros a; [reflexivity|].
  simpl. rewrite IH. apply allocate_buffer.
Qed.

Lemma allocate_all_capacity reqs :
  forall a, capacity_ (snd (allocate_all a reqs)) = capacity_ a.
Proof.
  induction reqs as [|[size al] rest IH]; intros a; [reflexivity|].
  simpl. rewrite IH. apply allocate_capacity.
Qed.

Lemma allocate_all_wf reqs : forall a, wf a -> wf (snd (allocate_all a reqs)).
Proof.
  induction reqs as [|[size al] rest IH]; intros a Hwf; [assumption|].
  simpl. apply IH. now apply allocate_wf.
Qed.

Lemma owns_same_block a b p :
  buffer_ a = buffer_ b -> capacity_ a = capacity_ b -> owns a p = owns b p.
Proof. unfold owns. now intros -> ->. Qed.

(** What a successful call returns, with the bounds that go with it. *)
Lemma allocate_success a size al :
  wf a -> in_range size -> in_range al ->
  fst (allocate a size al) <> nullptr ->
  is_power_of_2 al = true /\ 0 < size /\
  round_up (pos_ a) al + size <= capacity_ a /\
  allocate a size al =
    (buffer_ a + round_up (pos_ a) al,
     mkArena (buffer_ a) (capacity_ a) (round_up (pos_ a) al + size)).
Proof.
  intros Hwf Hsize Hal Hok.
  destruct (is_power_of_2 al) eqn:Hp;
    [|rewrite allocate_reject in Hok by auto; now contradiction Hok].
  destruct (Z.eq_dec size 0) as [Hz|Hnz];
    [rewrite allocate_reject in Hok by auto; now contradiction Hok|].
  rewrite allocate_checked in * by assumption.
  destruct (Z.leb_spec (round_up (pos_ a) al + size) (capacity_ a));
    [|now contradiction Hok].
  unfold in_range in Hsize. repeat split; try lia.
Qed.

(** X1: the pointer [allocate] returns is one [owns] accepts exactly when
    the call succeeded, every byte of the returned range is owned, and
    [nullptr] is never owned. *)
Theorem allocate_owns_iff a size al :
  wf a -> in_range size -> in_range al ->
  (owns (snd (allocate a size al)) (fst (allocate a size al)) = true <->
     fst (allocate a size al) <> nullptr) /\
  (fst (allocate a size al) <> nullptr ->
     forall k, 0 <= k < size ->
       owns (snd (allocate a size al)) (fst (allocate a size al) + k) = true) /\
  owns a nullptr = false.
Proof.
  intros Hwf Hsize Hal.
  assert (Hnull : owns a nullptr = false).
  { apply not_true_is_false. rewrite owns_spec by assumption.
    destruct Hwf as (_ & _ & Hst). unfold storage_ok, nullptr in *. lia. }
  assert (Hsame : forall p, owns (snd (allocate a size al)) p = owns a p)
    by (intros p; apply owns_same_block;
        [apply allocate_buffer|apply allocate_capacity]).
  split; [|split; [|exact Hnull]].
  - split; [|now apply allocate_owns].
    intros Hown Heq. rewrite Heq, Hsame in Hown. congruence.
  - intros Hok k Hk. rewrite Hsame.
    destruct (allocate_success a size al Hwf Hsize Hal Hok) as (Hp & _ & Hfit & ->).
    pose proof (round_up_bounds (pos_ a) al (is_power_of_2_pos _ Hp)).
    simpl. apply owns_spec; [assumption|]. destruct Hwf as (? & _). lia.
Qed.

Lemma allocate_owns_iff_witness :
  owns (snd (allocate (mkArena 4096 64 3) 8 4)) (fst (allocate (mkArena 4096 64 3) 8 4)) = true /\
  (forall k, 0 <= k < 8 ->
     owns (snd (allocate (mkArena 4096 64 3) 8 4))
          (fst (allocate (mkArena 4096 64 3) 8 4) + k) = true) /\
  owns (mkArena 4096 64 3) nullptr = false.
Proof.
  destruct (allocate_owns_iff (mkArena 4096 64 3) 8 4) as (Hiff & Hrange & Hnull);
    [wf_concrete..|].
  assert (Hok : fst (allocate (mkArena 4096 64 3) 8 4) <> nullptr)
    by (vm_compute; discriminate).
  split; [now apply Hiff|]. split; [now apply Hrange|exact Hnull].
Defined.

(** X2: an arena without capacity (default-constructed, moved-from, or
    built with capacity 0) owns no pointer at all. *)
Theorem owns_nothing_without_capacity a p :
  wf a -> capacity_ a = 0 -> owns a p = false.
Proof.
  intros Hwf Hzero. apply not_true_is_false.
  rewrite owns_spec by assumption. lia.
Qed.

Lemma owns_nothing_without_capacity_witness :
  owns Arena_default 0 = false /\ owns (Arena_sized 4096 0) 4096 = false.
Proof.
  split.
  - apply (owns_nothing_without_capacity Arena_default 0); [wf_concrete|reflexivity].
  - apply (owns_nothing_without_capacity (Arena_sized 4096 0) 4096);
      [wf_concrete|reflexivity].
Defined.

(** X3: [owns] looks at the block only: a pointer handed out by
    [allocate] is still owned after any further requests and after a
    [reset], although its bytes are then free to be handed out again. *)
Theorem owns_survives_reset a size al reqs :
  wf a -> in_range size -> in_range al ->
  fst (allocate a size al) <> nullptr ->
  owns (reset (snd (allocate_all (snd (allocate a size al)) reqs)))
       (fst (allocate a size al)) = true /\
  (forall p, owns (reset (snd (allocate_all (snd (allocate a size al)) reqs))) p
             = owns a p).
Proof.
  intros Hwf Hsize Hal Hok.
  assert (Hsame : forall p,
    owns (reset (snd (allocate_all (snd (allocate a size al)) reqs))) p = owns a p).
  { intros p. apply owns_same_block; simpl.
    - now rewrite allocate_all_buffer, allocate_buffer.
    - now rewrite allocate_all_capacity, allocate_capacity. }
  split; [|exact Hsame].
  rewrite Hsame.
  rewrite <- (owns_same_block (snd (allocate a size al)) a)
    by (apply allocate_buffer || apply allocate_capacity).
  now apply allocate_owns.
Qed.

Lemma owns_survives_reset_witness :
  owns (reset (snd (allocate_all (snd (allocate (mkArena 4096 64 3) 8 4)) [(16, 8); (100, 1)])))
       (fst (allocate (mkArena 4096 64 3) 8 4)) = true /\
  (forall p,
     owns (reset (snd (allocate_all (snd (allocate (mkArena 4096 64 3) 8 4)) [(16, 8); (100, 1)]))) p
     = owns (mkArena 4096 64 3) p).
Proof.
  apply (owns_survives_reset (mkArena 4096 64 3) 8 4 [(16, 8); (100, 1)]);
    [wf_concrete..|].
  vm_compute. discriminate.
Defined.

(** ** Capacity *)

Lemma wf_available a : wf a -> available a = capacity_ a - pos_ a.
Proof.
  intros Hwf. pose proof (wf_in_range_capacity a Hwf) as Hcap.
  destruct Hwf as (Hpos & _). unfold in_range in Hcap.
  unfold available, sub. apply wrap_small. lia.
Qed.

Lemma round_up_one v : round_up v 1 = v.
Proof.
  unfold round_up. rewrite Z.div_1_r. lia.
Qed.

(** The outcome of a request, decided on unbounded integers. *)
Lemma allocate_success_iff a size al :
  wf a -> in_range size -> in_range al ->
  fst (allocate a size al) <> nullptr <->
    is_power_of_2 al = true /\ 0 < size /\
    round_up (pos_ a) al + size <= capacity_ a.
Proof.
  intros Hwf Hsize Hal. split.
  - intros Hok. destruct (allocate_success a size al Hwf Hsize Hal Hok). tauto.
  - intros (Hp & Hpos & Hfit) Hnull.
    apply allocate_null_cases in Hnull; [|assumption..].
    pose proof (wf_in_range_capacity a Hwf) as Hcap. unfold in_range in Hcap.
    rewrite <- is_power_of_2_spec in Hnull.
    destruct Hnull as [?|[?|[?|?]]]; congruence || lia.
Qed.

(** X4: with alignment 1 there is no padding: [allocate(size, 1)]
    succeeds exactly when [0 < size <= available()], and then it returns
    [buffer_ + used()], [used()] grows by [size] and [available()] shrinks
    by [size]. *)
Theorem allocate_unaligned a size :
  wf a -> in_range size ->
  (fst (allocate a size 1) <> nullptr <-> 0 < size <= available a) /\
  (fst (allocate a size 1) <> nullptr ->
     fst (allocate a size 1) = buffer_ a + used a /\
     used (snd (allocate a size 1)) = used a + size /\
     available (snd (allocate a size 1)) = available a - size).
Proof.
  intros Hwf Hsize.
  assert (Hone : in_range 1) by wf_concrete.
  pose proof (wf_available a Hwf) as Hav.
  split.
  - rewrite allocate_success_iff by assumption.
    rewrite round_up_one, Hav. split; [intros (_ & ? & ?); lia|].
    intros [? ?]. split; [reflexivity|]. lia.
  - intros Hok.
    pose proof (wf_available _ (allocate_wf a size 1 Hwf)) as Hav'.
    rewrite Hav', Hav, allocate_capacity.
    destruct (allocate_success a size 1 Hwf Hsize Hone Hok) as (_ & _ & _ & ->).
    rewrite round_up_one. simpl. unfold used. lia.
Qed.

Lemma allocate_unaligned_witness :
  (fst (allocate (mkArena 4096 1024 10) 20 1) <> nullptr <->
     0 < 20 <= available (mkArena 4096 1024 10)) /\
  fst (allocate (mkArena 4096 1024 10) 20 1) = 4096 + used (mkArena 4096 1024 10) /\
  used (snd (allocate (mkArena 4096 1024 10) 20 1)) = used (mkArena 4096 1024 10) + 20 /\
  available (snd (allocate (mkArena 4096 1024 10) 20 1))
    = available (mkArena 4096 1024 10) - 20.
Proof.
  destruct (allocate_unaligned (mkArena 4096 1024 10) 20) as [Hiff Hres];
    [wf_concrete..|].
  split; [exact Hiff|]. apply Hres. vm_compute. discriminate.
Defined.

(** X5: a request for [size > 0] bytes at a power-of-two alignment
    succeeds whenever [size + alignment - 1 <= available()]; and whenever a
    request succeeds, the padding it skips is less than the alignment, so
    [used()] grows by less than [size + alignment]. *)
Theorem allocate_room_suffices a size al :
  wf a -> in_range size -> in_range al ->
  is_power_of_2 al = true -> 0 < size ->
  (size + al - 1 <= available a -> fst (allocate a size al) <> nullptr) /\
  (fst (allocate a size al) <> nullptr ->
     used a + size <= used (snd (allocate a size al)) < used a + size + al).
Proof.
  intros Hwf Hsize Hal Hp Hpos.
  pose proof (round_up_bounds (pos_ a) al (is_power_of_2_pos _ Hp)) as Hru.
  split.
  - intros Hroom. rewrite wf_available in Hroom by assumption.
    apply allocate_success_iff; try assumption. repeat split; assumption || lia.
  - intros Hok.
    destruct (allocate_success a size al Hwf Hsize Hal Hok) as (_ & _ & _ & ->).
    simpl. unfold used. lia.
Qed.

Lemma allocate_room_suffices_witness :
  fst (allocate (mkArena 4096 1024 1) 8 64) <> nullptr /\
  used (mkArena 4096 1024 1) + 8
    <= used (snd (allocate (mkArena 4096 1024 1) 8 64))
    < used (mkArena 4096 1024 1) + 8 + 64.
Proof.
  destruct (allocate_room_suffices (mkArena 4096 1024 1) 8 64) as [Hroom Hpad];
    [wf_concrete | wf_concrete | wf_concrete | reflexivity | lia |].
  assert (Hok : fst (allocate (mkArena 4096 1024 1) 8 64) <> nullptr)
    by (apply Hroom; vm_compute; discriminate).
  split; [exact Hok|now apply Hpad].
Defined.

(** X6: a request for more bytes than [available()] fails whatever the
    alignment, and leaves the arena as it was; so once [available()] is 0
    every request fails. *)
Theorem allocate_beyond_available a size al :
  wf a -> in_range size -> in_range al ->
  (available a < size -> allocate a size al = (nullptr, a)) /\
  (available a = 0 -> allocate a size al = (nullptr, a)).
Proof.
  intros Hwf Hsize Hal.
  assert (Hst : storage_ok a) by (destruct Hwf; tauto).
  pose proof (wf_available a Hwf) as Hav.
  assert (Hbig : available a < size -> allocate a size al = (nullptr, a)).
  { intros Hlt. apply allocate_null_iff; [assumption..|].
    destruct (Z.eq_dec (fst (allocate a size al)) nullptr) as [|Hok];
      [assumption|exfalso].
    apply allocate_success_iff in Hok as (Hp & _ & Hfit); [|assumption..].
    pose proof (round_up_bounds (pos_ a) al (is_power_of_2_pos _ Hp)). lia. }
  split; [exact Hbig|].
  intros Hzero. destruct (Z.eq_dec size 0) as [Hz|Hnz];
    [apply allocate_reject; auto|].
  apply Hbig. unfold in_range in Hsize. lia.
Qed.

Lemma allocate_beyond_available_witness :
  allocate (mkArena 4096 100 0) 200 1 = (nullptr, mkArena 4096 100 0) /\
  allocate (mkArena 4096 100 100) 1 1 = (nullptr, mkArena 4096 100 100).
Proof.
  split.
  - destruct (allocate_beyond_available (mkArena 4096 100 0) 200 1) as [Hbig _];
      [wf_concrete..|].
    apply Hbig. vm_compute. reflexivity.
  - destruct (allocate_beyond_available (mkArena 4096 100 100) 1 1) as [_ Hfull];
      [wf_concrete..|].
    apply Hfull. vm_compute. reflexivity.
Defined.

(** X7: on an arena whose position is 0, freshly constructed or just
    reset, a request at any power-of-two alignment succeeds exactly when
    [0 < size <= capacity()], and it returns the start of the buffer. *)
Theorem allocate_first a size al :
  wf a -> pos_ a = 0 -> in_range size -> in_range al ->
  is_power_of_2 al = true ->
  (fst (allocate a size al) <> nullptr <-> 0 < size <= capacity a) /\
  (0 < size <= capacity a ->
     allocate a size al = (buffer_ a, mkArena (buffer_ a) (capacity_ a) size)).
Proof.
  intros Hwf Hzero Hsize Hal Hp.
  assert (Hru : round_up (pos_ a) al = 0).
  { rewrite Hzero. apply round_up_aligned; [now apply is_power_of_2_pos|].
    apply Z.divide_0_r. }
  assert (Hiff : fst (allocate a size al) <> nullptr <-> 0 < size <= capacity a).
  { rewrite allocate_success_iff by assumption. rewrite Hru. unfold capacity.
    split; [intros (_ & ? & ?); lia|]. intros [? ?]. split; [assumption|]. lia. }
  split; [exact Hiff|].
  intros Hfit. apply Hiff in Hfit.
  destruct (allocate_success a size al Hwf Hsize Hal Hfit) as (_ & _ & _ & ->).
  rewrite Hru. now rewrite Z.add_0_r.
Qed.

Lemma allocate_first_witness :
  (fst (allocate (Arena_sized 4096 2048) 1 512) <> nullptr <->
     0 < 1 <= capacity (Arena_sized 4096 2048)) /\
  allocate (Arena_sized 4096 2048) 1 512 = (4096, mkArena 4096 2048 1).
Proof.
  destruct (allocate_first (Arena_sized 4096 2048) 1 512) as [Hiff Hres];
    [wf_concrete | reflexivity | wf_concrete | wf_concrete | reflexivity |].
  split; [exact Hiff|]. apply Hres. simpl. lia.
Defined.

(** ** [reset] and sequences of requests *)

Lemma reset_same_block a b :
  buffer_ a = buffer_ b -> capacity_ a = capacity_ b -> reset a = reset b.
Proof. unfold reset. now intros -> ->. Qed.

(** X8: [reset()] forgets the requests made so far: the arena is as if
    reset before any of them, so the same requests made again after a
    [reset()] get the same pointers again. *)
Theorem reset_forgets a reqs reqs' :
  reset (snd (allocate_all a reqs)) = reset a /\
  allocate_all (reset (snd (allocate_all (reset a) reqs))) reqs'
    = allocate_all (reset a) reqs'.
Proof.
  assert (Hforget : forall b, reset (snd (allocate_all b reqs)) = reset b)
    by (intros b; apply reset_same_block;
        [apply allocate_all_buffer|apply allocate_all_capacity]).
  split; [apply Hforget|]. rewrite Hforget.
  f_equal.
Qed.

(** The bytes handed out by a sequence of requests are covered by the
    growth of the position. *)
Lemma allocate_all_total reqs :
  forall a, wf a -> Forall (fun r => in_range (fst r) /\ in_range (snd r)) reqs ->
  pos_ a + total_size (fst (allocate_all a reqs)) <= pos_ (snd (allocate_all a reqs)) /\
  Forall (fun r => 0 < snd r) (fst (allocate_all a reqs)).
Proof.
  induction reqs as [|[size al] rest IH]; intros a Hwf Hreqs.
  - simpl. split; [lia|constructor].
  - apply Forall_cons in Hreqs as [[Hsize Hal] Hrest]. simpl in Hsize, Hal. simpl.
    destruct (IH _ (allocate_wf a size al Hwf) Hrest) as [IHsum IHpos].
    destruct (allocate_step a size al Hwf Hsize Hal) as [Hrej | (Hok & Hpos & Hlo & Hhi)].
    + rewrite Hrej in *. simpl in *. auto.
    + apply Z.eqb_neq in Hok. rewrite Hok. simpl.
      split; [lia|]. constructor; [assumption|exact IHpos].
Qed.

Lemma total_size_length rs :
  Forall (fun r => 0 < snd r) rs -> Z.of_nat (length rs) <= total_size rs.
Proof.
  induction 1 as [|r rs Hr _ IH]; simpl; [lia|].
  fold (total_size rs). lia.
Qed.

(** X9: the bytes handed out by any sequence of requests, added up, are
    at most the growth of [used()], which stays within the capacity: an
    arena never hands out more bytes than [available()] said, nor more
    ranges than that. *)
Theorem allocate_all_accounting a reqs :
  wf a -> Forall (fun r => in_range (fst r) /\ in_range (snd r)) reqs ->
  used a + total_size (fst (allocate_all a reqs)) <= used (snd (allocate_all a reqs)) /\
  used (snd (allocate_all a reqs)) <= capacity a /\
  total_size (fst (allocate_all a reqs)) <= available a /\
  Z.of_nat (length (fst (allocate_all a reqs))) <= available a.
Proof.
  intros Hwf Hreqs.
  destruct (allocate_all_total reqs a Hwf Hreqs) as [Hsum Hpos].
  pose proof (total_size_length _ Hpos) as Hlen.
  pose proof (allocate_all_wf reqs a Hwf) as (Hbound & _).
  rewrite allocate_all_capacity in Hbound.
  rewrite wf_available by assumption.
  unfold used, capacity. lia.
Qed.

Lemma allocate_all_accounting_witness :
  used (mkArena 4096 64 0)
    + total_size (fst (allocate_all (mkArena 4096 64 0) [(10, 1); (0, 4); (8, 8); (100, 1); (4, 16)]))
    <= used (snd (allocate_all (mkArena 4096 64 0) [(10, 1); (0, 4); (8, 8); (100, 1); (4, 16)])) /\
  used (snd (allocate_all (mkArena 4096 64 0) [(10, 1); (0, 4); (8, 8); (100, 1); (4, 16)]))
    <= capacity (mkArena 4096 64 0) /\
  total_size (fst (allocate_all (mkArena 4096 64 0) [(10, 1); (0, 4); (8, 8); (100, 1); (4, 16)]))
    <= available (mkArena 4096 64 0) /\
  Z.of_nat (length (fst (allocate_all (mkArena 4096 64 0) [(10, 1); (0, 4); (8, 8); (100, 1); (4, 16)])))
    <= available (mkArena 4096 64 0).
Proof.
  apply (allocate_all_accounting (mkArena 4096 64 0)
           [(10, 1); (0, 4); (8, 8); (100, 1); (4, 16)]).
  - wf_concrete.
  - repeat constructor; simpl; wf_concrete.
Defined.

(** *** Equal requests in a row *)

Lemma round_up_add_aligned m v al :
  0 < al -> (al | m) -> round_up (m + v) al = m + round_up v al.
Proof.
  intros Hal [q ->]. unfold round_up.
  replace (q * al + v + al - 1) with (v + al - 1 + q * al) by lia.
  rewrite Z.div_add by lia. lia.
Qed.

(** [S n] equal requests that fit: they all succeed, one stride apart. *)
Lemma allocate_all_replicate n :
  forall a size al,
  wf a -> in_range size -> in_range al ->
  is_power_of_2 al = true -> 0 < size ->
  round_up (pos_ a) al + Z.of_nat n * round_up size al + size <= capacity_ a ->
  allocate_all a (replicate (S n) (size, al)) =
    (map (fun i => (buffer_ a + round_up (pos_ a) al + Z.of_nat i * round_up size al, size))
         (seq 0 (S n)),
     mkArena (buffer_ a) (capacity_ a)
             (round_up (pos_ a) al + Z.of_nat n * round_up size al + size)).
Proof.
  induction n as [|n IH]; intros a size al Hwf Hsize Hal Hp Hpos Hfit.
  - pose proof (is_power_of_2_pos _ Hp) as Halpos.
    pose proof (round_up_bounds (pos_ a) al Halpos) as Hru.
    simpl replicate. cbn [allocate_all].
    rewrite allocate_checked by (assumption || lia).
    destruct (Z.leb_spec (round_up (pos_ a) al + size) (capacity_ a)); [|lia].
    cbn [fst snd seq map].
    destruct Hwf as (Hbound & _ & Hst). unfold storage_ok, nullptr in *.
    destruct (Z.eqb_spec (buffer_ a + round_up (pos_ a) al) 0); [lia|].
    change (Z.of_nat 0) with 0. rewrite Z.mul_0_l, !Z.add_0_r. reflexivity.
  - pose proof (is_power_of_2_pos _ Hp) as Halpos.
    pose proof (round_up_bounds (pos_ a) al Halpos) as Hru.
    pose proof (round_up_bounds size al Halpos) as Hstride.
    change (replicate (S (S n)) (size, al))
      with ((size, al) :: replicate (S n) (size, al)).
    cbn [allocate_all].
    rewrite allocate_checked by (assumption || lia).
    destruct (Z.leb_spec (round_up (pos_ a) al + size) (capacity_ a)); [|nia].
    cbn [fst snd].
    set (a' := mkArena (buffer_ a) (capacity_ a) (round_up (pos_ a) al + size)).
    assert (Hwf' : wf a').
    { destruct Hwf as (Hbound & Hcap & Hst). unfold wf, storage_ok, a'. simpl.
      repeat split; try lia. exact Hst. }
    assert (Hnext : round_up (pos_ a') al = round_up (pos_ a) al + round_up size al).
    { unfold a'. simpl. apply round_up_add_aligned; [assumption|apply round_up_divide]. }
    rewrite (IH a' size al Hwf' Hsize Hal Hp Hpos)
      by (rewrite Hnext; unfold a'; simpl; lia).
    rewrite Hnext. unfold a'. cbn [buffer_ capacity_ fst snd].
    destruct Hwf as (Hbound & _ & Hst). unfold storage_ok, nullptr in *.
    destruct (Z.eqb_spec (buffer_ a + round_up (pos_ a) al) 0); [lia|].
    f_equal.
    + change (seq 0 (S (S n))) with (0%nat :: seq 1 (S n)).
      rewrite <- seq_shift. cbn [map]. rewrite map_map. f_equal.
      * f_equal. lia.
      * apply map_ext. intros i. f_equal. lia.
    + f_equal. lia.
Qed.

(** X10: [n] equal requests [(size, alignment)] in a row on an arena
    with room for them all succeed and lay the ranges out as an array: the
    [i]-th pointer is [i] strides after the first, the stride being [size]
    rounded up to the alignment, and [used()] ends right after the last
    range. *)
Theorem allocate_equal_requests a size al n :
  wf a -> in_range size -> in_range al ->
  is_power_of_2 al = true -> 0 < size ->
  round_up (pos_ a) al + Z.of_nat n * round_up size al + size <= capacity_ a ->
  fst (allocate_all a (replicate (S n) (size, al))) =
    map (fun i => (buffer_ a + round_up (pos_ a) al + Z.of_nat i * round_up size al, size))
        (seq 0 (S n)) /\
  length (fst (allocate_all a (replicate (S n) (size, al)))) = S n /\
  used (snd (allocate_all a (replicate (S n) (size, al))))
    = round_up (pos_ a) al + Z.of_nat n * round_up size al + size.
Proof.
  intros Hwf Hsize Hal Hp Hpos Hfit.
  rewrite allocate_all_replicate by assumption. cbn [fst snd].
  split; [reflexivity|]. split; [|reflexivity].
  now rewrite length_map, length_seq.
Qed.

Lemma allocate_equal_requests_witness :
  fst (allocate_all (mkArena 4096 1024 0) (replicate 4 (50, 8))) =
    map (fun i => (4096 + round_up 0 8 + Z.of_nat i * round_up 50 8, 50)) (seq 0 4) /\
  length (fst (allocate_all (mkArena 4096 1024 0) (replicate 4 (50, 8)))) = 4%nat /\
  used (snd (allocate_all (mkArena 4096 1024 0) (replicate 4 (50, 8))))
    = round_up 0 8 + Z.of_nat 3 * round_up 50 8 + 50.
Proof.
  apply (allocate_equal_requests (mkArena 4096 1024 0) 50 8 3);
    [wf_concrete | wf_concrete | wf_concrete | reflexivity | lia |].
  vm_compute. discriminate.
Defined.

(** ** The typed [allocate<T>], continued *)

(** X11: when [allocate<T>(count)] returns [nullptr], for any [count]
    and on either of its failing paths, the arena is exactly as before
    the call; and no call changes the buffer or the capacity. *)
Theorem allocate_T_failure_unchanged T a count :
  storage_ok a ->
  (fst (fst (allocate_T T a count)) = nullptr ->
     snd (fst (allocate_T T a count)) = a) /\
  buffer_ (snd (fst (allocate_T T a count))) = buffer_ a /\
  capacity_ (snd (fst (allocate_T T a count))) = capacity_ a.
Proof.
  intros Hst.
  split; [|split; [apply allocate_T_buffer|apply allocate_T_capacity]].
  unfold allocate_T. destruct (count >? SIZE_MAX / sizeof T); [reflexivity|].
  cbn [fst snd]. intros Hnull.
  apply allocate_null_iff in Hnull; [now rewrite Hnull|assumption|].
  apply wrap_bounds.
Qed.

Lemma allocate_T_failure_unchanged_witness :
  snd (fst (allocate_T (mkCType 8 8) (mkArena 4096 100 96) 2)) = mkArena 4096 100 96 /\
  buffer_ (snd (fst (allocate_T (mkCType 8 8) (mkArena 4096 100 96) 2))) = 4096 /\
  capacity_ (snd (fst (allocate_T (mkCType 8 8) (mkArena 4096 100 96) 2))) = 100.
Proof.
  destruct (allocate_T_failure_unchanged (mkCType 8 8) (mkArena 4096 100 96) 2)
    as (Hfail & Hbuf & Hcap); [wf_concrete|].
  split; [apply Hfail; reflexivity|]. split; [exact Hbuf|exact Hcap].
Defined.

(** X12: a successful [allocate<T>(count)] returns room for an array of
    [count] objects: [count] is positive, the offset of the pointer is a
    multiple of [alignof(T)], the [count * sizeof(T)] bytes end where
    [used()] then stands, within the capacity, and every element
    [p + i * sizeof(T)] lies in the arena with its [sizeof(T)] bytes before
    the end of the array. *)
Theorem allocate_T_array T a count :
  wf a -> 0 < sizeof T -> in_range count -> in_range (alignof T) ->
  fst (fst (allocate_T T a count)) <> nullptr ->
  0 < count /\ count * sizeof T <= SIZE_MAX /\
  (alignof T | fst (fst (allocate_T T a count)) - buffer_ a) /\
  fst (fst (allocate_T T a count)) + count * sizeof T
    = buffer_ a + used (snd (fst (allocate_T T a count))) /\
  used (snd (fst (allocate_T T a count))) <= capacity a /\
  (forall i, 0 <= i < count ->
     owns a (fst (fst (allocate_T T a count)) + i * sizeof T) = true /\
     fst (fst (allocate_T T a count)) + i * sizeof T + sizeof T
       <= fst (fst (allocate_T T a count)) + count * sizeof T).
Proof.
  intros Hwf Hn Hcount Hal Hok.
  assert (Hfit : count * sizeof T <= SIZE_MAX).
  { destruct (Z_le_gt_dec (count * sizeof T) SIZE_MAX) as [|Hover]; [assumption|].
    exfalso. apply Hok. unfold allocate_T.
    apply Z.gt_lt, overflow_test in Hover; [|assumption].
    destruct (Z.gtb_spec count (SIZE_MAX / sizeof T)); [reflexivity|lia]. }
  assert (Heq : fst (allocate_T T a count) = allocate a (count * sizeof T) (alignof T)).
  { unfold allocate_T.
    destruct (Z.gtb_spec count (SIZE_MAX / sizeof T)) as [Hgt|_];
      [apply overflow_test in Hgt; [lia|assumption]|].
    cbn [fst]. unfold mul. unfold in_range in Hcount.
    rewrite wrap_small by nia. now rewrite (Z.mul_comm (sizeof T)). }
  rewrite Heq in *.
  assert (Htotal : in_range (count * sizeof T)) by (unfold in_range in *; nia).
  destruct (allocate_success a _ _ Hwf Htotal Hal Hok) as (Hp & Hpos & Hroom & Hres).
  pose proof (allocate_offset_aligned a _ _ Hwf Htotal Hal Hok) as Hdiv.
  pose proof (round_up_bounds (pos_ a) (alignof T) (is_power_of_2_pos _ Hp)) as Hru.
  assert (Hc : 0 < count) by nia.
  split; [assumption|]. split; [assumption|]. split; [assumption|].
  rewrite Hres. cbn [fst snd]. unfold used, capacity. cbn [pos_].
  split; [lia|]. split; [lia|].
  intros i Hi.
  assert (i * sizeof T + sizeof T <= count * sizeof T) by nia.
  assert (0 <= i * sizeof T) by nia.
  split; [|lia].
  apply owns_spec; [assumption|]. destruct Hwf as (? & _). lia.
Qed.

Lemma allocate_T_array_witness :
  0 < 10 /\ 10 * sizeof (mkCType 4 4) <= SIZE_MAX /\
  (alignof (mkCType 4 4) | fst (fst (allocate_T (mkCType 4 4) (mkArena 4096 1024 1) 10)) - 4096) /\
  fst (fst (allocate_T (mkCType 4 4) (mkArena 4096 1024 1) 10)) + 10 * sizeof (mkCType 4 4)
    = 4096 + used (snd (fst (allocate_T (mkCType 4 4) (mkArena 4096 1024 1) 10))) /\
  used (snd (fst (allocate_T (mkCType 4 4) (mkArena 4096 1024 1) 10)))
    <= capacity (mkArena 4096 1024 1) /\
  (forall i, 0 <= i < 10 ->
     owns (mkArena 4096 1024 1)
          (fst (fst (allocate_T (mkCType 4 4) (mkArena 4096 1024 1) 10))
           + i * sizeof (mkCType 4 4)) = true /\
     fst (fst (allocate_T (mkCType 4 4) (mkArena 4096 1024 1) 10))
       + i * sizeof (mkCType 4 4) + sizeof (mkCType 4 4)
       <= fst (fst (allocate_T (mkCType 4 4) (mkArena 4096 1024 1) 10))
          + 10 * sizeof (mkCType 4 4)).
Proof.
  apply (allocate_T_array (mkCType 4 4) (mkArena 4096 1024 1) 10).
  - wf_concrete.
  - simpl. lia.
  - wf_concrete.
  - wf_concrete.
  - vm_compute. discriminate.
Defined.

(** ** Alignment of the address, where it holds *)

Lemma allocate_T_as_allocate T a count :
  fst (fst (allocate_T T a count)) <> nullptr ->
  fst (allocate_T T a count) = allocate a (mul (sizeof T) count) (alignof T).
Proof.
  unfold allocate_T. destruct (count >? SIZE_MAX / sizeof T); [|reflexivity].
  intros Hok. now contradiction Hok.
Qed.

(** X13: in every world a program can reach, a pointer returned by
    [allocate] or [allocate<T>] for an alignment of at most the 16 bytes
    [::operator new] aligns to is a multiple of that alignment, as an
    address and not only as an offset. *)
Theorem reachable_address_aligned w l a :
  reachable w -> objs w !! l = Some a ->
  (forall size al, in_range size -> in_range al ->
     al <= DEFAULT_NEW_ALIGNMENT ->
     fst (allocate a size al) <> nullptr ->
     fst (allocate a size al) mod al = 0) /\
  (forall T count, in_range (alignof T) ->
     alignof T <= DEFAULT_NEW_ALIGNMENT ->
     fst (fst (allocate_T T a count)) <> nullptr ->
     fst (fst (allocate_T T a count)) mod alignof T = 0).
Proof.
  intros Hreach Hl.
  pose proof (reachable_wf w l a Hreach Hl) as Hwf.
  pose proof (reachable_new_aligned w l a Hreach Hl) as Hmod.
  assert (Hbyte : forall size al, in_range size -> in_range al ->
     al <= DEFAULT_NEW_ALIGNMENT ->
     fst (allocate a size al) <> nullptr ->
     fst (allocate a size al) mod al = 0).
  { intros size al Hsize Hal Hle Hok.
    destruct (allocate_success a size al Hwf Hsize Hal Hok) as (Hp & _).
    pose proof (is_power_of_2_pos _ Hp).
    apply Z.mod_divide; [lia|].
    now apply allocate_address_aligned_default. }
  split; [exact Hbyte|].
  intros T count Hal Hle Hok.
  pose proof (allocate_T_as_allocate T a count Hok) as Heq.
  rewrite Heq in Hok |- *.
  apply Hbyte; [apply wrap_bounds|assumption..].
Qed.

Lemma reachable_address_aligned_witness :
  fst (allocate (mkArena 4096 1024 100) 8 8) mod 8 = 0 /\
  fst (fst (allocate_T (mkCType 4 4) (mkArena 4096 1024 100) 3)) mod 4 = 0.
Proof.
  destruct (reachable_address_aligned example_world 0%nat (mkArena 4096 1024 100))
    as [Hbyte Htyped].
  - exists example_program. vm_compute. reflexivity.
  - vm_compute. reflexivity.
  - split.
    + apply Hbyte; [wf_concrete | wf_concrete | vm_compute; discriminate
                   | vm_compute; discriminate].
    + apply (Htyped (mkCType 4 4) 3);
        [wf_concrete | vm_compute; discriminate | vm_compute; discriminate].
Defined.

(** ** Ownership of the blocks *)

(** X14: in every world a program can reach, an arena that holds a
    buffer owns a live block of the free store of exactly its capacity, no
    two arenas hold the same buffer, and an arena that holds none is in the
    empty state, with capacity 0 and position 0. *)
Theorem reachable_exclusive_ownership w :
  reachable w ->
  (forall l a, objs w !! l = Some a -> buffer_ a <> nullptr ->
     heap w !! buffer_ a = Some (capacity_ a)) /\
  (forall l1 l2 a1 a2, l1 <> l2 ->
     objs w !! l1 = Some a1 -> objs w !! l2 = Some a2 ->
     buffer_ a1 <> nullptr -> buffer_ a1 <> buffer_ a2) /\
  (forall l a, objs w !! l = Some a -> buffer_ a = nullptr ->
     capacity_ a = 0 /\ pos_ a = 0).
Proof.
  intros Hreach. destruct (reachable_inv w Hreach) as [Hown Huniq].
  split; [|split].
  - intros l a Hl. now destruct (Hown _ _ Hl) as (_ & _ & ?).
  - intros l1 l2 a1 a2 Hne H1 H2 Hnn Heq. apply Hne. eapply Huniq; eassumption.
  - intros l a Hl Hnull. destruct (Hown _ _ Hl) as ((Hpos & _ & Hst) & _).
    unfold storage_ok, nullptr in *. lia.
Qed.

Lemma reachable_exclusive_ownership_witness :
  heap example_world !! buffer_ (mkArena 4096 1024 100)
    = Some (capacity_ (mkArena 4096 1024 100)) /\
  buffer_ (mkArena 4096 1024 100) <> buffer_ (mkArena 8192 512 0).
Proof.
  destruct (reachable_exclusive_ownership example_world) as (Hlive & Hdistinct & _).
  - exists example_program. vm_compute. reflexivity.
  - split.
    + apply (Hlive 0%nat (mkArena 4096 1024 100)); [vm_compute; reflexivity|].
      vm_compute. discriminate.
    + apply (Hdistinct 0%nat 1%nat (mkArena 4096 1024 100) (mkArena 8192 512 0));
        [lia | vm_compute; reflexivity | vm_compute; reflexivity
        | vm_compute; discriminate].
Defined.

Lemma release_lookup_Some t (h : gmap Z Z) p n :
  release t h !! p = Some n ->
  h !! p = Some n /\ (buffer_ t = nullptr \/ p <> buffer_ t).
Proof.
  unfold release, operator_delete.
  destruct (Z.eqb_spec (buffer_ t) nullptr) as [Hnull|Hnn]; [auto|].
  intros H. apply lookup_delete_Some in H as [Hne H]. auto.
Qed.

Lemma on_arena_no_leak l f w w' :
  (forall a, buffer_ (f a) = buffer_ a) ->
  no_leak w -> on_arena l f w = Some w' -> no_leak w'.
Proof.
  intros Hbuf Hleak Hstep. unfold on_arena in Hstep.
  destruct (objs w !! l) as [a|] eqn:Hl; [|discriminate].
  injection Hstep as <-. intros p n Hp. simpl in *.
  destruct (Hleak p n Hp) as (l0 & a0 & Hl0 & Hb & Hnn).
  destruct (decide (l0 = l)) as [->|Hne].
  - exists l, (f a). rewrite lookup_insert_eq, Hbuf.
    rewrite Hl in Hl0. injection Hl0 as ->. auto.
  - exists l0, a0. rewrite lookup_insert_ne by congruence. auto.
Qed.

(** A move passes the block of the source on to the destination. *)
Lemma moved_no_leak w dst src o h :
  dst <> src -> objs w !! src = Some o ->
  (forall p n, h !! p = Some n ->
     exists l a, l <> dst /\ objs w !! l = Some a /\ buffer_ a = p /\ buffer_ a <> nullptr) ->
  no_leak (mkWorld h (mem w)
     (<[dst := fst (take_fields o)]> (<[src := snd (take_fields o)]> (objs w)))).
Proof.
  intros Hne Hsrc Hold p n Hp. simpl in *.
  destruct (Hold p n Hp) as (l0 & a0 & Hl0dst & Hl0 & Hb & Hnn).
  destruct (decide (l0 = src)) as [->|Hl0src].
  - exists dst, (fst (take_fields o)). rewrite lookup_insert_eq.
    rewrite Hsrc in Hl0. injection Hl0 as ->. auto.
  - exists l0, a0. rewrite !lookup_insert_ne by congruence. auto.
Qed.

Lemma step_no_leak w o w' : no_leak w -> step w o = Some w' -> no_leak w'.
Proof.
  intros Hleak Hstep. destruct o; simpl in Hstep.
  - unfold construct_default in Hstep.
    destruct (objs w !! l) eqn:Hl; [discriminate|]. injection Hstep as <-.
    intros p n Hp. simpl in *.
    destruct (Hleak p n Hp) as (l0 & a0 & Hl0 & Hb & Hnn).
    exists l0, a0. rewrite lookup_insert_ne by congruence. auto.
  - unfold construct_sized in Hstep.
    destruct (objs w !! l) eqn:Hl; [discriminate|].
    destruct (in_rangeb capacity0 && new_ok (heap w) p capacity0) eqn:Hok; [|discriminate].
    injection Hstep as <-.
    apply andb_true_iff in Hok as [_ Hnew]. unfold new_ok in Hnew.
    repeat (apply andb_true_iff in Hnew as [Hnew _]). apply Z.ltb_lt in Hnew.
    intros q n Hq. simpl in *.
    destruct (decide (p = q)) as [<-|Hne].
    + exists l, (Arena_sized p capacity0). rewrite lookup_insert_eq. simpl.
      unfold nullptr. repeat split; lia.
    + rewrite lookup_insert_ne in Hq by assumption.
      destruct (Hleak q n Hq) as (l0 & a0 & Hl0 & Hb & Hnn).
      exists l0, a0. rewrite lookup_insert_ne by congruence. auto.
  - unfold move_construct in Hstep.
    destruct (objs w !! l) eqn:Hl; [discriminate|].
    destruct (objs w !! other) as [o|] eqn:Ho; [|discriminate].
    injection Hstep as <-.
    apply moved_no_leak; [congruence|assumption|].
    intros p n Hp. destruct (Hleak p n Hp) as (l0 & a0 & Hl0 & Hb & Hnn).
    exists l0, a0. repeat split; congruence.
  - unfold move_assign in Hstep.
    destruct (objs w !! this) as [t|] eqn:Ht; [|discriminate].
    destruct (objs w !! other) as [o|] eqn:Ho; [|discriminate].
    case_decide as Hne; [now injection Hstep as <-|].
    injection Hstep as <-.
    apply moved_no_leak; [assumption..|].
    intros p n Hp. apply release_lookup_Some in Hp as [Hp Hkept].
    destruct (Hleak p n Hp) as (l0 & a0 & Hl0 & Hb & Hnn).
    exists l0, a0. repeat split; try assumption.
    intros ->. rewrite Ht in Hl0. injection Hl0 as ->.
    destruct Hkept; congruence.
  - destruct (_ && _); [|discriminate].
    eapply on_arena_no_leak; [|eassumption..]. intros a. apply allocate_buffer.
  - destruct (_ && _); [|discriminate].
    eapply on_arena_no_leak; [|eassumption..]. intros a. apply allocate_T_buffer.
  - eapply on_arena_no_leak; [|eassumption..]. reflexivity.
  - unfold destroy in Hstep.
    destruct (objs w !! l) as [a|] eqn:Hl; [|discriminate].
    injection Hstep as <-. intros p n Hp. simpl in *.
    apply release_lookup_Some in Hp as [Hp Hkept].
    destruct (Hleak p n Hp) as (l0 & a0 & Hl0 & Hb & Hnn).
    exists l0, a0. rewrite lookup_delete_ne; [auto|].
    intros ->. rewrite Hl in Hl0. injection Hl0 as ->.
    destruct Hkept; congruence.
  - injection Hstep as <-. exact Hleak.
Qed.

Lemma run_no_leak os : forall w w', no_leak w -> run w os = Some w' -> no_leak w'.
Proof.
  induction os as [|o os IH]; intros w w' Hleak Hrun; simpl in Hrun.
  - now injection Hrun as <-.
  - destruct (step w o) as [w1|] eqn:Hstep; [|discriminate].
    eapply IH; [|eassumption]. eapply step_no_leak; eassumption.
Qed.

Lemma reachable_no_leak_inv w : reachable w -> no_leak w.
Proof.
  intros [os Hrun]. eapply run_no_leak; [|eassumption].
  intros p n Hp. simpl in Hp. rewrite lookup_empty in Hp. discriminate.
Qed.

(** X15: no block is leaked: in every world a program can reach, every
    live block of the free store is the buffer of a live arena, with the
    arena's capacity as its size; so once every arena has been destroyed
    the free store is empty. *)
Theorem reachable_no_leak w :
  reachable w ->
  (forall p n, heap w !! p = Some n ->
     exists l a, objs w !! l = Some a /\ buffer_ a = p /\ capacity_ a = n) /\
  (objs w = ∅ -> heap w = ∅).
Proof.
  intros Hreach.
  pose proof (reachable_no_leak_inv w Hreach) as Hleak.
  destruct (reachable_inv w Hreach) as [Hown _].
  split.
  - intros p n Hp. destruct (Hleak p n Hp) as (l & a & Hl & Hb & Hnn).
    exists l, a. split; [assumption|]. split; [assumption|].
    destruct (Hown _ _ Hl) as (_ & _ & Hlive). specialize (Hlive Hnn).
    rewrite Hb in Hlive. congruence.
  - intros Hempty. apply map_empty. intros p.
    destruct (heap w !! p) as [n|] eqn:Hp; [|reflexivity].
    destruct (Hleak p n Hp) as (l & a & Hl & _).
    rewrite Hempty, lookup_empty in Hl. discriminate.
Qed.

Lemma reachable_no_leak_witness :
  (exists l a, objs example_world !! l = Some a /\ buffer_ a = 8192 /\ capacity_ a = 512) /\
  heap (mkWorld ∅ ∅ ∅) = ∅.
Proof.
  split.
  - destruct (reachable_no_leak example_world) as [Howner _].
    + exists example_program. vm_compute. reflexivity.
    + apply (Howner 8192 512). vm_compute. reflexivity.
  - destruct (reachable_no_leak (mkWorld ∅ ∅ ∅)) as [_ Hempty].
    + exists (example_program ++ [OpMoveAssign 1 0; OpDestroy 0; OpDestroy 1]).
      vm_compute. reflexivity.
    + apply Hempty. reflexivity.
Defined.

(** ** The destructor *)

Lemma take_fields_fst o : fst (take_fields o) = o.
Proof. now destruct o. Qed.

Lemma take_fields_snd o : snd (take_fields o) = Arena_default.
Proof. reflexivity. Qed.

(** X16: the destructor deletes the block of the arena, which is live
    at that point, and nothing else: an arena without a buffer, such as a
    moved-from one, leaves the free store as it is, and the other arenas
    and their blocks are untouched. *)
Theorem destroy_releases w l a :
  World_inv w -> objs w !! l = Some a ->
  exists w', destroy l w = Some w' /\
    objs w' !! l = None /\ mem w' = mem w /\
    (buffer_ a <> nullptr ->
       heap w !! buffer_ a = Some (capacity_ a) /\
       heap w' = delete (buffer_ a) (heap w)) /\
    (buffer_ a = nullptr -> heap w' = heap w) /\
    (forall l' b, l' <> l -> objs w !! l' = Some b ->
       objs w' !! l' = Some b /\ heap w' !! buffer_ b = heap w !! buffer_ b) /\
    World_inv w'.
Proof.
  intros Hinv Hl.
  assert (Hstep : destroy l w = Some (mkWorld (release a (heap w)) (mem w) (delete l (objs w))))
    by (unfold destroy; now rewrite Hl).
  pose proof (destroy_inv l w _ Hinv Hstep) as Hinv'.
  destruct Hinv as [Hown Huniq].
  eexists. split; [exact Hstep|]. simpl.
  split; [apply lookup_delete_eq|]. split; [reflexivity|].
  unfold release, operator_delete.
  split; [|split; [|split; [|exact Hinv']]].
  - intros Hnn. destruct (Hown _ _ Hl) as (_ & _ & Hlive).
    split; [auto|]. destruct (Z.eqb_spec (buffer_ a) nullptr); [contradiction|reflexivity].
  - intros Hnull. destruct (Z.eqb_spec (buffer_ a) nullptr); [reflexivity|contradiction].
  - intros l' b Hne Hb. rewrite lookup_delete_ne by congruence.
    split; [assumption|].
    destruct (Z.eqb_spec (buffer_ a) nullptr) as [|Hnn]; [reflexivity|].
    apply lookup_delete_ne. intros Heq. apply Hne. symmetry.
    apply (Huniq l l' a b); assumption.
Qed.

Lemma destroy_releases_witness :
  exists w', destroy 0 example_world = Some w' /\
    objs w' !! 0%nat = None /\
    heap example_world !! 4096 = Some 1024 /\
    heap w' = delete 4096 (heap example_world) /\
    objs w' !! 1%nat = Some (mkArena 8192 512 0) /\
    heap w' !! 8192 = heap example_world !! 8192.
Proof.
  destruct (destroy_releases example_world 0%nat (mkArena 4096 1024 100))
    as (w' & Hstep & Hgone & _ & Hdel & _ & Hothers & _);
    [apply example_world_inv | vm_compute; reflexivity |].
  destruct Hdel as [Hlive Hheap]; [vm_compute; discriminate|].
  destruct (Hothers 1%nat (mkArena 8192 512 0)) as [Hkept Hblock];
    [lia | vm_compute; reflexivity |].
  exists w'. auto 10.
Defined.

(** X17: destroying an arena right after it was moved from frees
    nothing: after a move construction the free store is as before the
    move, and after a move assignment only the block the destination held
    before is gone; in both cases the destination holds the state the
    source had, with its block still live. *)
Theorem move_then_destroy_source w dst src a :
  World_inv w -> objs w !! src = Some a ->
  (objs w !! dst = None ->
     exists w', run w [OpMoveConstruct dst src; OpDestroy src] = Some w' /\
       objs w' !! dst = Some a /\ objs w' !! src = None /\
       heap w' = heap w) /\
  (forall t, objs w !! dst = Some t -> dst <> src ->
     exists w', run w [OpMoveAssign dst src; OpDestroy src] = Some w' /\
       objs w' !! dst = Some a /\ objs w' !! src = None /\
       heap w' = release t (heap w) /\
       heap w' !! buffer_ a = heap w !! buffer_ a).
Proof.
  intros [Hown Huniq] Hsrc. split.
  - intros Hdst. assert (Hne : dst <> src) by congruence.
    cbn [run step]. unfold move_construct. rewrite Hdst, Hsrc.
    unfold destroy. cbn [objs heap mem].
    rewrite lookup_insert_ne, lookup_insert_eq by congruence.
    eexists. split; [reflexivity|]. cbn [objs heap].
    rewrite lookup_delete_ne, lookup_insert_eq, lookup_delete_eq by congruence.
    rewrite take_fields_fst. auto.
  - intros t Hdst Hne.
    cbn [run step]. unfold move_assign. rewrite Hdst, Hsrc.
    case_decide; [contradiction|].
    unfold destroy. cbn [objs heap mem].
    rewrite lookup_insert_ne, lookup_insert_eq by congruence.
    eexists. split; [reflexivity|]. cbn [objs heap].
    rewrite lookup_delete_ne, lookup_insert_eq, lookup_delete_eq by congruence.
    rewrite take_fields_fst.
    split; [reflexivity|]. split; [reflexivity|]. split; [reflexivity|].
    unfold release, operator_delete.
    destruct (Z.eqb_spec (buffer_ t) nullptr) as [|Hnn]; [reflexivity|].
    apply lookup_delete_ne. intros Heq. apply Hne.
    apply (Huniq dst src t a); assumption.
Qed.

Lemma move_then_destroy_source_witness :
  (exists w', run example_world [OpMoveConstruct 2 0; OpDestroy 0] = Some w' /\
     objs w' !! 2%nat = Some (mkArena 4096 1024 100) /\ objs w' !! 0%nat = None /\
     heap w' = heap example_world) /\
  (exists w', run example_world [OpMoveAssign 1 0; OpDestroy 0] = Some w' /\
     objs w' !! 1%nat = Some (mkArena 4096 1024 100) /\ objs w' !! 0%nat = None /\
     heap w' = release (mkArena 8192 512 0) (heap example_world) /\
     heap w' !! buffer_ (mkArena 4096 1024 100)
       = heap example_world !! buffer_ (mkArena 4096 1024 100)).
Proof.
  destruct (move_then_destroy_source example_world 2 0 (mkArena 4096 1024 100))
    as [Hconstruct _];
    [apply example_world_inv | vm_compute; reflexivity |].
  destruct (move_then_destroy_source example_world 1 0 (mkArena 4096 1024 100))
    as [_ Hassign];
    [apply example_world_inv | vm_compute; reflexivity |].
  split; [apply Hconstruct; vm_compute; reflexivity|].
  apply (Hassign (mkArena 8192 512 0)); [vm_compute; reflexivity|lia].
Defined.

(** ** Construction *)

(** X18: [Arena(capacity)], when [::operator new] succeeds, gives an
    arena that reports [capacity() == capacity], [used() == 0] and
    [available() == capacity] and owns the new block; the default
    constructor gives one that reports 0 three times and acquires nothing.
    Neither touches another arena or another block, and both keep the
    invariant of the world. *)
Theorem construction_fresh w l cap p :
  World_inv w -> objs w !! l = None ->
  (in_range cap -> new_ok (heap w) p cap = true ->
     exists w', construct_sized l cap p w = Some w' /\
       objs w' !! l = Some (Arena_sized p cap) /\
       capacity (Arena_sized p cap) = cap /\
       used (Arena_sized p cap) = 0 /\
       available (Arena_sized p cap) = cap /\
       heap w' !! p = Some cap /\
       (forall q, q <> p -> heap w' !! q = heap w !! q) /\
       (forall l', l' <> l -> objs w' !! l' = objs w !! l') /\
       World_inv w') /\
  (exists w', construct_default l w = Some w' /\
     objs w' !! l = Some Arena_default /\
     capacity Arena_default = 0 /\ used Arena_default = 0 /\
     available Arena_default = 0 /\
     heap w' = heap w /\
     (forall l', l' <> l -> objs w' !! l' = objs w !! l') /\
     World_inv w').
Proof.
  intros Hinv Hl. split.
  - intros Hcap Hnew.
    assert (Hstep : construct_sized l cap p w =
              Some (mkWorld (<[p := cap]> (heap w)) (mem w)
                            (<[l := Arena_sized p cap]> (objs w)))).
    { unfold construct_sized. rewrite Hl, Hnew.
      apply in_rangeb_spec in Hcap. now rewrite Hcap. }
    eexists. split; [exact Hstep|]. cbn [objs heap].
    split; [apply lookup_insert_eq|]. split; [reflexivity|]. split; [reflexivity|].
    split.
    { unfold available, sub. cbn [capacity_ pos_]. rewrite Z.sub_0_r.
      now apply wrap_small. }
    split; [apply lookup_insert_eq|].
    split; [intros q Hq; now apply lookup_insert_ne|].
    split; [intros l' Hl'; now apply lookup_insert_ne|].
    eapply construct_sized_inv; eassumption.
  - assert (Hstep : construct_default l w =
              Some (mkWorld (heap w) (mem w) (<[l := Arena_default]> (objs w))))
      by (unfold construct_default; now rewrite Hl).
    eexists. split; [exact Hstep|]. cbn [objs heap].
    split; [apply lookup_insert_eq|].
    repeat (split; [reflexivity|]).
    split; [intros l' Hl'; now apply lookup_insert_ne|].
    eapply construct_default_inv; eassumption.
Qed.

Lemma construction_fresh_witness :
  exists w', construct_sized 2 1024 12288 example_world = Some w' /\
    objs w' !! 2%nat = Some (Arena_sized 12288 1024) /\
    capacity (Arena_sized 12288 1024) = 1024 /\
    used (Arena_sized 12288 1024) = 0 /\
    available (Arena_sized 12288 1024) = 1024 /\
    heap w' !! 12288 = Some 1024 /\
    (forall q, q <> 12288 -> heap w' !! q = heap example_world !! q) /\
    (forall l', l' <> 2%nat -> objs w' !! l' = objs example_world !! l') /\
    World_inv w'.
Proof.
  destruct (construction_fresh example_world 2 1024 12288) as [Hsized _];
    [apply example_world_inv | vm_compute; reflexivity |].
  apply Hsized; [wf_concrete | vm_compute; reflexivity].
Defined.
